(** * PrisonersDilemmaAutomaton: agents, matches and tournaments

    A shallow embedding of [agent.py], [environment.py] and [tournament.py].

    Conventions of the embedding.
    - Python integers and the entries of integer numpy arrays are [Z].  The
      moves produced by [decide] are [1] and [-1]; numpy returns some of them
      as floats ([1.0], [-1.0]), which are exact, so they are kept as [Z].
    - A raised exception is [Err e]; a returned value is [Ok v].
    - The global numpy random generator and the standard output are the two
      pieces of process state the code touches; they are threaded through
      the computations that use them as a [World].
    - Array arithmetic is written in [Z].  numpy computes in 64-bit integers
      or in double precision, which gives the same results as long as the
      entries are moves and binary digits; the statements that depend on
      the value of a product or a sum are made for such entries.
    - A payoff function gets the values of the two moves.  Where a statement
      depends on how a total is printed, the payoff function is a table of
      Python integers ([table_payoff]).
    - [np.log2] works in double precision.  Its ceiling is the exact one for
      the populations up to [exact_log2_bound]; the statements that depend
      on the code length are made for those. *)

From Stdlib Require Import ZArith String Ascii Bool Lia DecimalString List.
Import ListNotations.
Open Scope Z_scope.

(** ** Exceptions and the error monad *)

Inductive exn : Type :=
| ValueError (msg : string)
| IndexError
| TypeError
| OverflowError.

Inductive result (A : Type) : Type :=
| Ok (v : A)
| Err (e : exn).
Arguments Ok {A} v.
Arguments Err {A} e.

Definition rbind {A B} (r : result A) (k : A -> result B) : result B :=
  match r with
  | Ok v => k v
  | Err e => Err e
  end.

(** The value a call returns, [None] when it raises. *)
Definition returned {A} (r : result A) : option A :=
  match r with
  | Ok v => Some v
  | Err _ => None
  end.

Declare Scope res_scope.
Delimit Scope res_scope with res.
Notation "x <- r ;; k" := (rbind r (fun x => k))
  (at level 61, r at next level, right associativity) : res_scope.
Notation "' p <- r ;; k" := (rbind r (fun x => match x with p => k end))
  (at level 61, p pattern, r at next level, right associativity) : res_scope.

(** ** Process state: random generator and standard output *)

Record World : Type := mkWorld {
  rng : nat -> Z;           (* the raw values the generator will produce *)
  stdout : list string      (* the lines printed so far *)
}.

Definition M (A : Type) : Type := World -> result A * World.

Definition ret {A} (v : A) : M A := fun w => (Ok v, w).

Definition bind {A B} (m : M A) (k : A -> M B) : M B :=
  fun w =>
    match m w with
    | (Ok v, w') => k v w'
    | (Err e, w') => (Err e, w')
    end.

Definition lift {A} (r : result A) : M A := fun w => (r, w).

Declare Scope io_scope.
Delimit Scope io_scope with io.
Notation "x <- m ;; k" := (bind m (fun x => k))
  (at level 61, m at next level, right associativity) : io_scope.
Notation "' p <- m ;; k" := (bind m (fun x => match x with p => k end))
  (at level 61, p pattern, m at next level, right associativity) : io_scope.

(** [print(s)] *)
Definition print (s : string) : M unit :=
  fun w => (Ok tt, mkWorld (rng w) (stdout w ++ [s])).

(** [for x in xs: s = body(x, s)]; an exception leaves the loop. *)
Fixpoint for_in {S : Type} (xs : list Z) (body : Z -> S -> M S) (s : S) : M S :=
  match xs with
  | [] => ret s
  | x :: xs' => bind (body x s) (for_in xs' body)
  end.

(** ** Python and numpy primitives *)

(** A value that is either a Python [int] or a one-dimensional integer
    [ndarray]. *)
Inductive pyobj : Type :=
| PyInt (z : Z)
| NdArray (l : list Z).

(** [np.random.randint(low, high, 1)]: an array of shape [(1,)] holding one
    integer of [[low, high)]; [ValueError] when the interval is empty. *)
Definition np_random_randint (low high : Z) : M pyobj :=
  fun w =>
    if high <=? low then (Err (ValueError "low >= high"), w)
    else (Ok (NdArray [low + rng w 0%nat mod (high - low)]),
          mkWorld (fun n => rng w (S n)) (stdout w)).

(** [abs(x)] *)
Definition py_abs (x : pyobj) : pyobj :=
  match x with
  | PyInt z => PyInt (Z.abs z)
  | NdArray l => NdArray (map Z.abs l)
  end.

(** [range(x)]: [x] must be usable as an index.  An integer is; an array of
    one dimension is not, whatever its size ("only integer scalar arrays can
    be converted to a scalar index"). *)
Definition py_range (x : pyobj) : result (list Z) :=
  match x with
  | PyInt z => Ok (map Z.of_nat (seq 0 (Z.to_nat z)))
  | NdArray _ => Err TypeError
  end.

(** [l[-n:]] on a list or array: the last [n] items, all of them when
    [n = 0] (because [-0] is [0]) or when [n] exceeds the size. *)
Definition slice_last {A} (n : nat) (l : list A) : list A :=
  if (n =? 0)%nat then l else skipn (length l - n) l.

(** A two-row array, the shape of both the decision matrix and the stacked
    histories. *)
Record arr2 : Type := mkArr2 { row0 : list Z; row1 : list Z }.

(** [a.shape[1]] *)
Definition shape1 (a : arr2) : nat := length (row0 a).

(** [np.stack([r, s])]: both rows must have the same size. *)
Definition np_stack (r s : list Z) : result arr2 :=
  if (length r =? length s)%nat then Ok (mkArr2 r s)
  else Err (ValueError "all input arrays must have the same shape").

(** [a[:, -n:]] *)
Definition cols_last (n : nat) (a : arr2) : arr2 :=
  mkArr2 (slice_last n (row0 a)) (slice_last n (row1 a)).

(** [v.reshape((2, cols))] *)
Definition np_reshape2 (v : list Z) (cols : nat) : result arr2 :=
  if (2 * cols =? length v)%nat then Ok (mkArr2 (firstn cols v) (skipn cols v))
  else Err (ValueError "cannot reshape array").

Fixpoint zip_with (f : Z -> Z -> Z) (r s : list Z) : list Z :=
  match r, s with
  | x :: r', y :: s' => f x y :: zip_with f r' s'
  | _, _ => []
  end.

(** An element-wise operation on two rows with numpy's broadcasting: equal
    sizes combine position by position, a row of size one is stretched over
    the other, anything else is a [ValueError]. *)
Definition broadcast (f : Z -> Z -> Z) (r s : list Z) : result (list Z) :=
  if (length r =? length s)%nat then Ok (zip_with f r s)
  else match r, s with
       | [x], _ => Ok (map (f x) s)
       | _, [y] => Ok (map (fun x => f x y) r)
       | _, _ => Err (ValueError "operands could not be broadcast together")
       end.

(** [h * m] on two-row arrays.  The products are taken in [Z]; numpy takes
    them in 64-bit integers or doubles, which is the same for moves and
    binary digits. *)
Definition np_mul (h m : arr2) : result arr2 :=
  (r0 <- broadcast Z.mul (row0 h) (row0 m) ;;
   r1 <- broadcast Z.mul (row1 h) (row1 m) ;;
   Ok (mkArr2 r0 r1))%res.

(** Python's builtin [sum] on a two-row array: it iterates over the first
    axis, so it computes [0 + row0 + row1], a row of column sums (in [Z], as
    for the products). *)
Definition py_sum (a : arr2) : result (list Z) :=
  broadcast Z.add (map (Z.add 0) (row0 a)) (row1 a).

(** [v[0]] *)
Definition index0 (v : list Z) : result Z :=
  match v with
  | [] => Err IndexError
  | x :: _ => Ok x
  end.

(** [(-1)**e] for a numpy integer [e]: negative exponents are refused. *)
Definition pow_neg1 (e : Z) : result Z :=
  if e <? 0 then Err (ValueError "Integers to negative integer powers are not allowed.")
  else Ok ((-1) ^ e).

(** ** agent.py *)

Definition cooperate : Z := 1.
Definition defect : Z := -1.

Record Agent : Type := mkAgent {
  id : list Z;          (* __id *)
  start : Z;            (* __start *)
  id_matrix : arr2;     (* __id_matrix *)
  dim2 : nat            (* __dim2 *)
}.

Definition odd_digits_msg : string := "The id must have an odd number of digits.".

(** [get_id_matrix]: the first digit and the rest reshaped to two rows. *)
Definition get_id_matrix (id : list Z) : result (Z * arr2) :=
  match id with
  | [] => Err IndexError
  | first :: rest =>
      (m <- np_reshape2 rest ((length id - 1) / 2)%nat ;; Ok (first, m))%res
  end.

(** [Agent.__init__] *)
Definition Agent_init (id : list Z) : result Agent :=
  if (length id mod 2 =? 0)%nat then Err (ValueError odd_digits_msg)
  else
    ('(s, m) <- get_id_matrix id ;;
     Ok (mkAgent id s m (shape1 m)))%res.

(** [np.heaviside(x, 1)*2 - 1] on one entry *)
Definition heaviside (x : Z) : Z :=
  (if x <? 0 then 0 else 1) * 2 - 1.

(** [Agent.decide] *)
Definition decide (self : Agent) (history_self history_other : list Z) : result Z :=
  if (length history_other =? 0)%nat then pow_neg1 (start self)
  else
    let length := Nat.min (length history_self) (dim2 self) in
    (history <- np_stack (slice_last length history_other)
                         (slice_last length history_self) ;;
     let matrix := cols_last length (id_matrix self) in
     product <- np_mul history matrix ;;
     total <- py_sum product ;;
     index0 (map heaviside total))%res.

(** ** environment.py *)

Record Environment : Type := mkEnvironment {
  payoff : Z -> Z -> Z * Z;
  poisson : option Z;
  env_length : Z            (* length *)
}.

(** [Environment.__init__] *)
Definition Environment_init (payoff : Z -> Z -> Z * Z) (length : Z)
    (poisson : option Z) : Environment :=
  mkEnvironment payoff poisson length.

(** The local variables of [iterate] that the round loop updates. *)
Record Match : Type := mkMatch {
  total_a : Z;
  total_b : Z;
  history_a : list Z;
  history_b : list Z
}.

(** The body of the round loop. *)
Definition round (self : Environment) (actor_a actor_b : Agent) (st : Match)
    : result Match :=
  (decision_a <- decide actor_a (history_a st) (history_b st) ;;
   decision_b <- decide actor_b (history_b st) (history_a st) ;;
   let '(a, b) := payoff self decision_a decision_b in
   Ok (mkMatch (total_a st + a) (total_b st + b)
               (history_a st ++ [decision_a]) (history_b st ++ [decision_b])))%res.

(** [Environment.iterate] *)
Definition iterate (self : Environment) (actor_a actor_b : Agent) : M Match :=
  (length <- match poisson self with
             | Some p =>
                 draw <- np_random_randint (env_length self - p) (env_length self + p) ;;
                 ret (py_abs draw)
             | None => ret (PyInt (env_length self))
             end ;;
   rounds <- lift (py_range length) ;;
   for_in rounds (fun _ st => lift (round self actor_a actor_b st))
          (mkMatch 0 0 [] []))%io.

(** ** tournament.py *)

Record Tournament : Type := mkTournament {
  competitors : Z;
  t_length : Z;             (* length *)
  environment : Environment
}.

(** [Tournament.__init__]: the [poisson] argument is not used. *)
Definition Tournament_init (competitors length : Z) (payoff : Z -> Z -> Z * Z)
    (poisson : option Z) : Tournament :=
  mkTournament competitors length (Environment_init payoff length None).

Definition warning_msg : string :=
  "Warning: It is best if the number of competitors be an odd power of 2 (for example 2**5, 2**7 or 2**17). Incomplete exploration of the search space may otherwise occur.".

(** The populations for which the double-precision logarithm has the exact
    ceiling: up to there a number [2^k + 1] has a logarithm more than one
    unit in the last place above [k]. *)
Definition exact_log2_bound : Z := 2 ^ 48.

(** The first integer numpy cannot store in a 64-bit word. *)
Definition uint64_limit : Z := 2 ^ 64.

Ltac population_bounds :=
  unfold exact_log2_bound, uint64_limit in *; cbn in *; lia.

(** Every entry of a list of literals is one of two given values. *)
Ltac one_of_two :=
  repeat (apply Forall_cons; [first [left; reflexivity | right; reflexivity]|]);
  apply Forall_nil.

(** [np.log2(c).__ceil__()]: [log2] of [0] is [-inf] and of a negative
    number [nan], neither of which converts to an integer; an integer of
    [2^64] or more is no numpy number and [np.log2] refuses it.  Between
    [2^48] and [2^64] the double can round down to the lower integer (at
    [2^49 + 1] it is [49.0]), which this definition does not follow. *)
Definition ceil_log2 (c : Z) : result Z :=
  match c with
  | Z0 => Err OverflowError
  | Zneg _ => Err (ValueError "cannot convert float NaN to integer")
  | Zpos _ => if c <? uint64_limit then Ok (Z.log2_up c) else Err TypeError
  end.

(** The binary digits of a positive number, most significant first, in front
    of [acc]. *)
Fixpoint bin_digits (p : positive) (acc : string) : string :=
  match p with
  | xH => String "1" acc
  | xO q => bin_digits q (String "0" acc)
  | xI q => bin_digits q (String "1" acc)
  end.

Fixpoint zeros (n : nat) : string :=
  match n with
  | O => EmptyString
  | S n' => String "0" (zeros n')
  end.

(** [format(n, f"0{width}b")]: binary digits, zero-padded to at least
    [width] characters, the sign (if any) in front of the padding. *)
Definition format_0b (width : Z) (n : Z) : string :=
  match n with
  | Z0 => zeros (Z.to_nat width - 1) ++ "0"
  | Zpos p =>
      let d := bin_digits p EmptyString in
      zeros (Z.to_nat width - String.length d) ++ d
  | Zneg p =>
      let d := bin_digits p EmptyString in
      String "-" (zeros (Z.to_nat width - 1 - String.length d) ++ d)
  end%string.

(** [int(c)] for a one-character string *)
Definition int_of_char (c : ascii) : result Z :=
  let k := Z.of_nat (nat_of_ascii c) in
  if (48 <=? k) && (k <=? 57) then Ok (k - 48)
  else Err (ValueError "invalid literal for int() with base 10").

(** [np.array(list(s)).astype(int)] *)
Fixpoint digits_of_string (s : string) : result (list Z) :=
  match s with
  | EmptyString => Ok []
  | String c s' =>
      (d <- int_of_char c ;; ds <- digits_of_string s' ;; Ok (d :: ds))%res
  end.

(** [Tournament.convert_to_id] *)
Definition convert_to_id (self : Tournament) (n : Z) : M (list Z * string) :=
  (leading <- lift (ceil_log2 (competitors self)) ;;
   leading <- (if leading mod 2 =? 0
               then (_ <- print warning_msg ;; ret (leading + 1))
               else ret leading) ;;
   let binary := format_0b leading n in
   digits <- lift (digits_of_string binary) ;;
   ret (digits, binary))%io.

(** An entry of a score row before it is packed into an array: a Python
    integer or a string.  The totals are Python integers when the payoff
    function returns Python integers; float totals are not represented. *)
Inductive cell : Type :=
| CInt (z : Z)
| CStr (s : string).

Definition is_str (c : cell) : bool :=
  match c with CStr _ => true | CInt _ => false end.

(** [str(v)] *)
Definition to_str (c : cell) : cell :=
  match c with
  | CStr s => CStr s
  | CInt z => CStr (NilZero.string_of_int (Z.to_int z))
  end.

(** [np.array(rows)]: an array has one element type, so as soon as one entry
    is a string every entry is stored as its string. *)
Definition np_array (rows : list (list cell)) : list (list cell) :=
  if existsb (existsb is_str) rows then map (map to_str) rows else rows.

(** [Tournament.compete]; [tqdm] only draws a progress bar around the outer
    loop. *)
Definition compete (self : Tournament) : M (list (list cell)) :=
  (population <- lift (py_range (PyInt (competitors self))) ;;
   scores <- for_in population (fun n_a scores =>
     '(id_a, string_a) <- convert_to_id self n_a ;;
     a <- lift (Agent_init id_a) ;;
     for_in population (fun n_b scores =>
       '(id_b, string_b) <- convert_to_id self n_b ;;
       b <- lift (Agent_init id_b) ;;
       m <- iterate (environment self) a b ;;
       ret (scores ++ [[CInt n_a; CInt n_b; CStr string_a; CStr string_b;
                        CInt (total_a m); CInt (total_b m)]])) scores) [] ;;
   ret (np_array scores))%io.

(** ** The decision rule as the documentation states it *)

Fixpoint sum_list (l : list Z) : Z :=
  match l with
  | [] => 0
  | x :: l' => x + sum_list l'
  end.

(** The documented rule: multiply the stacked recent histories with the last
    columns of the decision matrix entry by entry, add up ALL the entries and
    take the sign, zero counting as positive. *)
Definition decide_documented (self : Agent) (history_self history_other : list Z)
    : Z :=
  let length := Nat.min (length history_self) (dim2 self) in
  let recent_other := slice_last length history_other in
  let recent_self := slice_last length history_self in
  let matrix := cols_last length (id_matrix self) in
  heaviside (sum_list (zip_with Z.mul recent_other (row0 matrix)) +
             sum_list (zip_with Z.mul recent_self (row1 matrix))).

(** A payoff function given by a table of Python integers, one pair for
    each pair of moves.  It compares its arguments with 1, so it returns the
    same integers whether a move reaches it as [1] or as [1.0]. *)
Definition table_payoff (cc cd dc dd : Z * Z) (x y : Z) : Z * Z :=
  if x =? 1 then (if y =? 1 then cc else cd)
  else (if y =? 1 then dc else dd).

(** The payoff table of the documentation: 3/3, 1/1, 0/5 and 5/0. *)
Definition canonical_payoff (x y : Z) : Z * Z :=
  if x =? 1 then (if y =? 1 then (3, 3) else (0, 5))
  else (if y =? 1 then (5, 0) else (1, 1)).

Definition world0 : World := mkWorld (fun n => Z.of_nat n) [].

(** The agent of code 00100: columns [[0, 1], [0, 0]]. *)
Definition agent_00100 : Agent :=
  mkAgent [0; 0; 1; 0; 0] 0 (mkArr2 [0; 1] [0; 0]) 2.

(** ** Results that do not depend on the process state *)

(** The loop [for_in] for a body that touches no process state. *)
Fixpoint rfor_in {S : Type} (xs : list Z) (body : Z -> S -> result S) (s : S)
    : result S :=
  match xs with
  | [] => Ok s
  | x :: xs' => rbind (body x s) (rfor_in xs' body)
  end.

(** [m] returns (or raises) [r] in every state of the process. *)
Definition yields {A} (m : M A) (r : result A) : Prop :=
  forall w, fst (m w) = r.

(** What [iterate] computes when [poisson] is [None]. *)
Definition play (self : Environment) (actor_a actor_b : Agent) : result Match :=
  (rounds <- py_range (PyInt (env_length self)) ;;
   rfor_in rounds (fun _ st => round self actor_a actor_b st)
           (mkMatch 0 0 [] []))%res.

(** The code length [convert_to_id] settles on for a population. *)
Definition code_length (competitors : Z) : Z :=
  let leading := Z.log2_up competitors in
  if leading mod 2 =? 0 then leading + 1 else leading.

(** What [convert_to_id] returns, its printing left aside. *)
Definition code_of (competitors n : Z) : result (list Z * string) :=
  (leading <- ceil_log2 competitors ;;
   let leading := if leading mod 2 =? 0 then leading + 1 else leading in
   let binary := format_0b leading n in
   digits <- digits_of_string binary ;;
   Ok (digits, binary))%res.

(** What [compete] returns, its printing left aside, when the environment
    has no [poisson]. *)
Definition compete_result (self : Tournament) : result (list (list cell)) :=
  (population <- py_range (PyInt (competitors self)) ;;
   scores <- rfor_in population (fun n_a scores =>
     '(id_a, string_a) <- code_of (competitors self) n_a ;;
     a <- Agent_init id_a ;;
     rfor_in population (fun n_b scores =>
       '(id_b, string_b) <- code_of (competitors self) n_b ;;
       b <- Agent_init id_b ;;
       m <- play (environment self) a b ;;
       Ok (scores ++ [[CInt n_a; CInt n_b; CStr string_a; CStr string_b;
                       CInt (total_a m); CInt (total_b m)]])) scores) [] ;;
   Ok (np_array scores))%res.

Definition is_bit (d : Z) : Prop := d = 0 \/ d = 1.

Definition horner (acc d : Z) : Z := 2 * acc + d.

(** The number a digit sequence denotes, most significant digit first. *)
Definition value_of_digits (digits : list Z) : Z :=
  fold_left horner digits 0.

(** The points a payoff function gives over two move histories. *)
Definition points (payoff : Z -> Z -> Z * Z) (ha hb : list Z) : list (Z * Z) :=
  map (fun d => payoff (fst d) (snd d)) (combine ha hb).

(** The decimal text of an integer. *)
Definition decimal (z : Z) : string := NilZero.string_of_int (Z.to_int z).

(** The row shape the interface description gives: two integers, two
    strings, two numbers. *)
Definition typed_row (row : list cell) : Prop :=
  exists n_a n_b code_a code_b t_a t_b,
    row = [CInt n_a; CInt n_b; CStr code_a; CStr code_b; CInt t_a; CInt t_b].

(** The state of a match after some rounds: histories of one size, totals
    that are the sums of the points of the rounds played. *)
Definition consistent (self : Environment) (st : Match) : Prop :=
  length (history_a st) = length (history_b st) /\
  total_a st = sum_list (map fst (points (payoff self) (history_a st) (history_b st))) /\
  total_b st = sum_list (map snd (points (payoff self) (history_a st) (history_b st))).

(** An agent as the tournament builds them for a population of three or
    more: constructed from its digits, a bias that is not negative, at least
    one matrix column. *)
Definition playable (a : Agent) : Prop :=
  (exists id, Agent_init id = Ok a) /\ 0 <= start a /\ (1 <= dim2 a)%nat.

(** The row [compete] appends for the pair [(n_a, n_b)], empty if some step
    for that pair raises. *)
Definition row_of (self : Tournament) (n_a n_b : Z) : list cell :=
  match code_of (competitors self) n_a, code_of (competitors self) n_b with
  | Ok (id_a, string_a), Ok (id_b, string_b) =>
      match Agent_init id_a, Agent_init id_b with
      | Ok a, Ok b =>
          match play (environment self) a b with
          | Ok m => [CInt n_a; CInt n_b; CStr string_a; CStr string_b;
                     CInt (total_a m); CInt (total_b m)]
          | Err _ => []
          end
      | _, _ => []
      end
  | _, _ => []
  end.

(** Every step for the pair [(n_a, n_b)] succeeds. *)
Definition pair_ok (self : Tournament) (n_a n_b : Z) : Prop :=
  exists id_a string_a a id_b string_b b m,
    code_of (competitors self) n_a = Ok (id_a, string_a) /\
    Agent_init id_a = Ok a /\
    code_of (competitors self) n_b = Ok (id_b, string_b) /\
    Agent_init id_b = Ok b /\
    play (environment self) a b = Ok m.

(** [Agent.get_id] *)
Definition get_id (self : Agent) : list Z := id self.

(** A value that is one of the two moves. *)
Definition is_move (d : Z) : Prop := d = cooperate \/ d = defect.

(** The result of a match seen from the other side. *)
Definition mirror (m : Match) : Match :=
  mkMatch (total_b m) (total_a m) (history_b m) (history_a m).

(** A payoff function that treats both players alike. *)
Definition symmetric (payoff : Z -> Z -> Z * Z) : Prop :=
  forall x y, payoff y x = (snd (payoff x y), fst (payoff x y)).

(** The agent of code 010: columns [[1], [0]]. *)
Definition agent_010 : Agent := mkAgent [0; 1; 0] 0 (mkArr2 [1] [0]) 1.

(** * Properties of the agent *)

Section AgentFacts.

Lemma slice_last_length {A} (n : nat) (l : list A) :
  (1 <= n <= length l)%nat -> length (slice_last n l) = n.
Proof.
  intros H. unfold slice_last.
  destruct (Nat.eqb_spec n 0) as [E|E]; [lia|].
  rewrite length_skipn. lia.
Qed.

Lemma slice_last_app {A} (n : nat) (old l : list A) :
  (1 <= n <= length l)%nat -> slice_last n (old ++ l) = slice_last n l.
Proof.
  intros H. unfold slice_last.
  destruct (Nat.eqb_spec n 0) as [E|E]; [lia|].
  rewrite skipn_app, length_app.
  replace (length old + length l - n)%nat
    with (length old + (length l - n))%nat by lia.
  rewrite skipn_all2 by lia. simpl. f_equal. lia.
Qed.

(** What a successful construction yields. *)
Lemma Agent_init_inv (id : list Z) (a : Agent) :
  Agent_init id = Ok a ->
  exists first rest,
    id = first :: rest /\
    length rest = (2 * dim2 a)%nat /\
    a = mkAgent id first
          (mkArr2 (firstn (dim2 a) rest) (skipn (dim2 a) rest)) (dim2 a) /\
    length (row0 (id_matrix a)) = dim2 a /\
    length (row1 (id_matrix a)) = dim2 a.
Proof.
  unfold Agent_init, get_id_matrix, np_reshape2.
  destruct (length id mod 2 =? 0)%nat; [discriminate|].
  destruct id as [|first rest]; [discriminate|].
  replace (length (first :: rest) - 1)%nat with (length rest)
    by (cbn [length]; lia).
  set (m := (length rest / 2)%nat).
  destruct (Nat.eqb_spec (2 * m) (length rest)) as [E|E];
    cbn [rbind]; [|discriminate].
  intros H. injection H as <-. unfold shape1. cbn [dim2 id_matrix row0 row1].
  assert (L : length (firstn m rest) = m) by (rewrite length_firstn; lia).
  exists first, rest. rewrite L.
  repeat split; try lia.
  rewrite length_skipn. lia.
Qed.

(** With at least one column and enough history, [decide] looks at the two
    windows only, and of their column sums it returns the sign of the
    first. *)
Lemma decide_window (a : Agent) (hs ho : list Z) :
  (1 <= dim2 a)%nat ->
  (dim2 a <= length hs)%nat -> (dim2 a <= length ho)%nat ->
  decide a hs ho =
    (product <- np_mul (mkArr2 (slice_last (dim2 a) ho) (slice_last (dim2 a) hs))
                       (cols_last (dim2 a) (id_matrix a)) ;;
     total <- py_sum product ;;
     index0 (map heaviside total))%res.
Proof.
  intros H1 Hs Ho. unfold decide.
  destruct (Nat.eqb_spec (length ho) 0) as [E|E]; [lia|].
  rewrite Nat.min_r by lia.
  unfold np_stack. rewrite !slice_last_length by lia.
  rewrite Nat.eqb_refl. reflexivity.
Qed.

(** An agent without columns cannot answer once the other side has a
    history. *)
Lemma decide_no_columns (a : Agent) (hs ho : list Z) :
  dim2 a = 0%nat -> row0 (id_matrix a) = [] -> row1 (id_matrix a) = [] ->
  ho <> [] ->
  exists e, decide a hs ho = Err e.
Proof.
  intros D R0 R1 Hne. unfold decide.
  destruct ho as [|o ho']; [congruence|]. cbn [length Nat.eqb].
  rewrite D, Nat.min_0_r. unfold slice_last at 1 2. cbn [Nat.eqb].
  unfold np_stack.
  destruct (Nat.eqb_spec (length (o :: ho')) (length hs)) as [E|E];
    cbn [rbind]; [|eauto].
  unfold np_mul, cols_last, slice_last. cbn [Nat.eqb row0 row1].
  rewrite R0, R1.
  destruct hs as [|s hs']; [discriminate E|].
  destruct ho' as [|o' ho''], hs' as [|s' hs'']; try discriminate E.
  - cbn. eauto.
  - unfold broadcast. cbn. eauto.
Qed.

End AgentFacts.

(** ** Construction *)

(** C2. A digit sequence of odd length [b] always constructs an agent: the
    bias is the first digit and the matrix has two rows of [(b-1)/2] columns,
    the first half of the remaining digits on row 0 and the second half on
    row 1.  A digit sequence of even length always raises the error about
    the odd number of digits. *)
Theorem Agent_init_parity (id : list Z) :
  (Nat.Odd (length id) ->
   exists first rest,
     id = first :: rest /\
     let m := ((length id - 1) / 2)%nat in
     Agent_init id =
       Ok (mkAgent id first (mkArr2 (firstn m rest) (skipn m rest)) m) /\
     length (firstn m rest) = m /\
     length (skipn m rest) = m /\
     firstn m rest ++ skipn m rest = rest) /\
  (Nat.Even (length id) -> Agent_init id = Err (ValueError odd_digits_msg)).
Proof.
  split.
  - intros [k Hk].
    destruct id as [|first rest]; [cbn in Hk; lia|].
    exists first, rest. split; [reflexivity|].
    cbn zeta.
    assert (Hr : length rest = (2 * k)%nat) by (cbn [length] in Hk; lia).
    replace ((length (first :: rest) - 1) / 2)%nat with k
      by (cbn [length]; replace (S (length rest) - 1)%nat with (k * 2)%nat by lia;
          now rewrite Nat.div_mul).
    assert (Hf : length (firstn k rest) = k) by (rewrite length_firstn; lia).
    assert (Hm : (length (first :: rest) mod 2 =? 0)%nat = false).
    { apply Nat.eqb_neq. rewrite Hk.
      replace (2 * k + 1)%nat with (1 + k * 2)%nat by lia.
      rewrite Nat.Div0.mod_add. cbn. lia. }
    repeat split.
    + unfold Agent_init, get_id_matrix, np_reshape2. rewrite Hm.
      replace ((length (first :: rest) - 1) / 2)%nat with k
        by (cbn [length]; replace (S (length rest) - 1)%nat with (k * 2)%nat by lia;
            now rewrite Nat.div_mul).
      rewrite Hr, Nat.eqb_refl. cbn [rbind]. unfold shape1. cbn [row0].
      now rewrite Hf.
    + exact Hf.
    + rewrite length_skipn. lia.
    + apply firstn_skipn.
  - intros [k Hk]. unfold Agent_init. rewrite Hk.
    replace (2 * k)%nat with (k * 2)%nat by lia.
    now rewrite Nat.Div0.mod_mul.
Qed.

Lemma Agent_init_parity_witness :
  (exists first rest,
     [0; 0; 1; 0; 0] = first :: rest /\
     let m := ((length [0; 0; 1; 0; 0] - 1) / 2)%nat in
     Agent_init [0; 0; 1; 0; 0] =
       Ok (mkAgent [0; 0; 1; 0; 0] first
             (mkArr2 (firstn m rest) (skipn m rest)) m) /\
     length (firstn m rest) = m /\
     length (skipn m rest) = m /\
     firstn m rest ++ skipn m rest = rest) /\
  Agent_init [0; 1] = Err (ValueError odd_digits_msg).
Proof.
  split.
  - apply (proj1 (Agent_init_parity [0; 0; 1; 0; 0])).
    exists 2%nat. reflexivity.
  - apply (proj2 (Agent_init_parity [0; 1])).
    exists 1%nat. reflexivity.
Defined.

(** ** The first round *)

(** C9. With an empty history of the other player, an agent whose bias is a
    bit answers [(-1)^bias] whatever its own history: it cooperates exactly
    when the bias is 0 and defects exactly when the bias is 1. *)
Theorem decide_first_round (a : Agent) (history_self : list Z) :
  start a = 0 \/ start a = 1 ->
  decide a history_self [] = Ok ((-1) ^ start a) /\
  (decide a history_self [] = Ok cooperate <-> start a = 0) /\
  (decide a history_self [] = Ok defect <-> start a = 1).
Proof.
  intros H. unfold decide, pow_neg1, cooperate, defect. cbn [length Nat.eqb].
  destruct H as [-> | ->]; cbn; repeat split; intros; congruence.
Qed.

Lemma decide_first_round_witness :
  decide (mkAgent [1; 0; 1] 1 (mkArr2 [0] [1]) 1) [1; -1] [] = Ok ((-1) ^ 1) /\
  (decide (mkAgent [1; 0; 1] 1 (mkArr2 [0] [1]) 1) [1; -1] [] = Ok cooperate
   <-> 1 = 0) /\
  (decide (mkAgent [1; 0; 1] 1 (mkArr2 [0] [1]) 1) [1; -1] [] = Ok defect
   <-> 1 = 1).
Proof.
  apply (decide_first_round (mkAgent [1; 0; 1] 1 (mkArr2 [0] [1]) 1) [1; -1]).
  right. reflexivity.
Defined.

(** ** Later rounds *)

Lemma skipn_nth_cons {A} (d : A) (l : list A) (k : nat) :
  (k < length l)%nat -> skipn k l = nth k l d :: skipn (S k) l.
Proof.
  revert k. induction l as [|x l IH]; intros k H; cbn [length] in H; [lia|].
  destruct k as [|k]; [reflexivity|].
  cbn [skipn nth]. rewrite (IH k) by lia. reflexivity.
Qed.

Lemma slice_last_head {A} (d : A) (n : nat) (l : list A) :
  (1 <= n <= length l)%nat ->
  slice_last n l = nth (length l - n) l d :: skipn (S (length l - n)) l.
Proof.
  intros H. unfold slice_last.
  destruct (Nat.eqb_spec n 0) as [E|E]; [lia|].
  apply skipn_nth_cons. lia.
Qed.

Lemma zip_with_length (f : Z -> Z -> Z) (r s : list Z) :
  length r = length s -> length (zip_with f r s) = length r.
Proof.
  revert s. induction r as [|x r IH]; intros [|y s] H; cbn in *; try lia.
  rewrite IH; lia.
Qed.

Lemma broadcast_same (f : Z -> Z -> Z) (r s : list Z) :
  length r = length s -> broadcast f r s = Ok (zip_with f r s).
Proof.
  intros H. unfold broadcast. rewrite H, Nat.eqb_refl. reflexivity.
Qed.

(** What the code computes once the other player has moved: with
    [k = min(len(history_self), columns)], the sign of the single column sum
    at the oldest position of the window, the other entries of the window
    having no influence. *)
Lemma decide_first_column (id : list Z) (a : Agent) (hs ho : list Z) :
  Agent_init id = Ok a ->
  let k := Nat.min (length hs) (dim2 a) in
  (1 <= k <= length ho)%nat ->
  decide a hs ho =
    Ok (heaviside
          (0 + nth (length ho - k) ho 0 * nth (dim2 a - k) (row0 (id_matrix a)) 0
             + nth (length hs - k) hs 0 * nth (dim2 a - k) (row1 (id_matrix a)) 0)).
Proof.
  intros Hinit k Hk.
  destruct (Agent_init_inv id a Hinit) as (first & rest & _ & _ & _ & L0 & L1).
  unfold decide. fold k.
  destruct (Nat.eqb_spec (length ho) 0) as [E|E]; [lia|].
  assert (Ks : (k <= length hs)%nat) by (unfold k; lia).
  assert (Km : (k <= dim2 a)%nat) by (unfold k; lia).
  pose proof (slice_last_length k ho ltac:(lia)) as Lo.
  pose proof (slice_last_length k hs ltac:(lia)) as Ls.
  pose proof (slice_last_length k (row0 (id_matrix a)) ltac:(lia)) as Lm0.
  pose proof (slice_last_length k (row1 (id_matrix a)) ltac:(lia)) as Lm1.
  unfold np_stack, np_mul, py_sum, cols_last.
  rewrite Lo, Ls, Nat.eqb_refl. cbn [rbind row0 row1].
  rewrite !broadcast_same by lia. cbn [rbind row0 row1].
  rewrite broadcast_same
    by (rewrite length_map, !zip_with_length; lia).
  revert Lo Ls Lm0 Lm1.
  rewrite (slice_last_head 0 k ho), (slice_last_head 0 k hs) by lia.
  rewrite (slice_last_head 0 k (row0 (id_matrix a))) by lia.
  rewrite (slice_last_head 0 k (row1 (id_matrix a))) by lia.
  rewrite L0, L1. intros _ _ _ _. reflexivity.
Qed.

(** C1 (the code departs from the documented rule). The agent of code 00100,
    with own history [1, 1] and other history [1, -1]: the products are
    [[0, -1], [0, 0]], their total is -1, so the documented rule defects; the
    code adds the rows only, gets the column sums [0, -1], and answers with
    the sign of the first one, which is cooperate. *)
Theorem decide_sums_first_column_only :
  Agent_init [0; 0; 1; 0; 0] = Ok agent_00100 /\
  (1 <= dim2 agent_00100)%nat /\
  decide agent_00100 [1; 1] [1; -1] = Ok cooperate /\
  decide_documented agent_00100 [1; 1] [1; -1] = defect.
Proof.
  repeat split; try reflexivity; try (cbn; lia).
Qed.

(** With a window wider than the other history, the two windows cannot be
    stacked. *)
Lemma decide_short_other (a : Agent) (hs ho : list Z) :
  (1 <= dim2 a <= length hs)%nat -> (length ho < dim2 a)%nat -> ho <> [] ->
  exists e, decide a hs ho = Err e.
Proof.
  intros Hk Hshort Hne. unfold decide.
  destruct ho as [|o ho']; [congruence|]. cbn [length Nat.eqb].
  rewrite Nat.min_r by lia. unfold np_stack.
  rewrite (slice_last_length (dim2 a) hs) by lia.
  unfold slice_last at 1.
  destruct (Nat.eqb_spec (dim2 a) 0) as [E|E]; [lia|].
  cbn [length] in Hshort |- *.
  replace (S (length ho') - dim2 a)%nat with 0%nat by lia. cbn [skipn length].
  destruct (Nat.eqb_spec (S (length ho')) (dim2 a)) as [E'|E']; [lia|].
  cbn [rbind]. eauto.
Qed.

(** C5. For an agent with [m] columns, an own history of at least [m]
    entries and a non-empty other history: the value [decide] returns is
    still returned after the same older entries are put in front of both
    histories. *)
Theorem decide_invariant_to_older_history
    (id : list Z) (a : Agent) (history_self history_other old : list Z) (d : Z) :
  Agent_init id = Ok a ->
  (dim2 a <= length history_self)%nat ->
  history_other <> [] ->
  decide a history_self history_other = Ok d ->
  decide a (old ++ history_self) (old ++ history_other) = Ok d.
Proof.
  intros Hinit Hs Hne Hd.
  destruct (Agent_init_inv id a Hinit) as (first & rest & _ & Hr & _ & L0 & L1).
  destruct (Nat.eq_dec (dim2 a) 0) as [D|D].
  - assert (R0 : row0 (id_matrix a) = []) by (apply length_zero_iff_nil; lia).
    assert (R1 : row1 (id_matrix a) = []) by (apply length_zero_iff_nil; lia).
    destruct (decide_no_columns a history_self history_other D R0 R1 Hne)
      as [e He].
    congruence.
  - destruct (Nat.lt_ge_cases (length history_other) (dim2 a)) as [Hshort|Ho].
    + destruct (decide_short_other a history_self history_other) as [e He];
        try assumption; [lia | congruence].
    + rewrite <- Hd.
      rewrite !decide_window by (rewrite ?length_app; lia).
      rewrite !slice_last_app by lia. reflexivity.
Qed.

Lemma decide_invariant_to_older_history_witness :
  decide agent_00100 ([-1; 1] ++ [1; 1]) ([-1; 1] ++ [1; -1]) = Ok 1.
Proof.
  apply (decide_invariant_to_older_history [0; 0; 1; 0; 0]).
  - reflexivity.
  - cbn. lia.
  - discriminate.
  - reflexivity.
Defined.

(** * Properties of the match engine *)

Section MonadFacts.

Lemma yields_ret {A} (v : A) : yields (ret v) (Ok v).
Proof. intros w. reflexivity. Qed.

Lemma yields_lift {A} (r : result A) : yields (lift r) r.
Proof. intros w. reflexivity. Qed.

Lemma yields_bind {A B} (m : M A) (k : A -> M B) (r : result A)
    (kr : A -> result B) :
  yields m r -> (forall v, yields (k v) (kr v)) -> yields (bind m k) (rbind r kr).
Proof.
  intros Hm Hk w. unfold bind. specialize (Hm w).
  destruct (m w) as [[v|e] w']; cbn in Hm; subst r; cbn; [apply Hk | reflexivity].
Qed.

Lemma yields_for_in {S} (body : Z -> S -> M S) (rbody : Z -> S -> result S) :
  (forall x s, yields (body x s) (rbody x s)) ->
  forall xs s, yields (for_in xs body s) (rfor_in xs rbody s).
Proof.
  intros Hb xs. induction xs as [|x xs IH]; intros s; cbn [for_in rfor_in].
  - apply yields_ret.
  - apply yields_bind; [apply Hb | apply IH].
Qed.

(** A property of the loop state that every iteration keeps holds at the
    end. *)
Lemma rfor_in_invariant {S} (P : S -> Prop) (body : Z -> S -> result S)
    (xs : list Z) :
  (forall x s s', In x xs -> P s -> body x s = Ok s' -> P s') ->
  forall s s', P s -> rfor_in xs body s = Ok s' -> P s'.
Proof.
  induction xs as [|x xs IH]; intros Hb s s' Hs; cbn [rfor_in].
  - intros [= <-]. exact Hs.
  - destruct (body x s) as [s1|e] eqn:E; cbn [rbind]; [|discriminate].
    apply IH.
    + intros y t t' Hy. apply Hb. now right.
    + apply (Hb x s s1); auto. now left.
Qed.

End MonadFacts.

Section MatchFacts.

Variable self : Environment.
Variables actor_a actor_b : Agent.

(** Without [poisson], [iterate] is [play] and leaves the process state
    alone. *)
Lemma iterate_is_play (w : World) :
  poisson self = None -> iterate self actor_a actor_b w = (play self actor_a actor_b, w).
Proof.
  intros H. unfold iterate, play, bind, ret, lift. rewrite H.
  destruct (py_range (PyInt (env_length self))) as [rounds|e]; cbn [rbind];
    [|reflexivity].
  generalize (mkMatch 0 0 [] []). induction rounds as [|x rounds IH]; intros st.
  - reflexivity.
  - cbn [for_in rfor_in]. unfold bind at 1.
    destruct (round self actor_a actor_b st) as [st'|e]; cbn [rbind];
      [apply IH | reflexivity].
Qed.

Lemma iterate_yields_play :
  poisson self = None -> yields (iterate self actor_a actor_b) (play self actor_a actor_b).
Proof. intros H w. now rewrite iterate_is_play. Qed.

Lemma combine_snoc {A B} (l : list A) (l' : list B) (x : A) (y : B) :
  length l = length l' ->
  combine (l ++ [x]) (l' ++ [y]) = combine l l' ++ [(x, y)].
Proof.
  revert l'. induction l as [|a l IH]; intros [|b l'] H; cbn in *; try lia.
  - reflexivity.
  - rewrite IH by lia. reflexivity.
Qed.

Lemma sum_list_app (l l' : list Z) :
  sum_list (l ++ l') = sum_list l + sum_list l'.
Proof. induction l as [|x l IH]; cbn; lia. Qed.

Lemma round_consistent (st st' : Match) :
  consistent self st -> round self actor_a actor_b st = Ok st' ->
  consistent self st' /\ length (history_a st') = S (length (history_a st)).
Proof.
  intros (Hl & Ha & Hb). unfold round.
  destruct (decide actor_a _ _) as [da|e]; cbn [rbind]; [|discriminate].
  destruct (decide actor_b _ _) as [db|e]; cbn [rbind]; [|discriminate].
  destruct (payoff self da db) as [pa pb] eqn:E. intros [= <-].
  unfold consistent, points. cbn [history_a history_b total_a total_b].
  rewrite combine_snoc by exact Hl.
  rewrite !map_app, !sum_list_app, !length_app. cbn [map fst snd sum_list length].
  rewrite E. cbn [fst snd]. unfold points in Ha, Hb. repeat split; lia.
Qed.

(** A match that completes has played as many rounds as the loop has
    iterations. *)
Lemma rounds_consistent (xs : list Z) :
  forall st st',
    consistent self st ->
    rfor_in xs (fun _ st => round self actor_a actor_b st) st = Ok st' ->
    consistent self st' /\
    length (history_a st') = (length (history_a st) + length xs)%nat.
Proof.
  induction xs as [|x xs IH]; intros st st' Hc; cbn [rfor_in].
  - intros [= <-]. split; [exact Hc | cbn; lia].
  - destruct (round self actor_a actor_b st) as [st1|e] eqn:E; cbn [rbind];
      [|discriminate].
    intros H. destruct (round_consistent st st1 Hc E) as [Hc1 Hl1].
    destruct (IH st1 st' Hc1 H) as [Hc' Hl']. split; [exact Hc'|].
    rewrite Hl', Hl1. cbn [length]. lia.
Qed.

Lemma play_rounds (m : Match) :
  play self actor_a actor_b = Ok m ->
  length (history_a m) = Z.to_nat (env_length self) /\
  length (history_b m) = Z.to_nat (env_length self) /\
  total_a m = sum_list (map fst (points (payoff self) (history_a m) (history_b m))) /\
  total_b m = sum_list (map snd (points (payoff self) (history_a m) (history_b m))).
Proof.
  unfold play, py_range. cbn [rbind]. intros H.
  apply rounds_consistent in H.
  - destruct H as [(Hl & Ha & Hb) Hn].
    rewrite length_map, length_seq in Hn. cbn [history_a length] in Hn.
    repeat split; try assumption; lia.
  - repeat split.
Qed.

End MatchFacts.

Section PlayableFacts.

Variable self : Environment.
Variables actor_a actor_b : Agent.
Hypothesis playable_a : playable actor_a.
Hypothesis playable_b : playable actor_b.

Lemma decide_playable (a : Agent) (hs ho : list Z) :
  playable a -> length hs = length ho -> exists d, decide a hs ho = Ok d.
Proof.
  intros ([id Hinit] & Hstart & Hdim) Hl.
  destruct ho as [|o ho'].
  - unfold decide, pow_neg1. cbn [length Nat.eqb].
    destruct (Z.ltb_spec (start a) 0); [lia | eauto].
  - eexists. apply (decide_first_column id a hs (o :: ho') Hinit).
    cbn [length] in *. lia.
Qed.

Lemma round_playable (st : Match) :
  length (history_a st) = length (history_b st) ->
  exists st', round self actor_a actor_b st = Ok st'.
Proof.
  intros Hl. unfold round.
  destruct (decide_playable actor_a (history_a st) (history_b st) playable_a Hl)
    as [da ->].
  destruct (decide_playable actor_b (history_b st) (history_a st) playable_b
              (eq_sym Hl)) as [db ->].
  cbn [rbind]. destruct (payoff self da db). eauto.
Qed.

Lemma rounds_playable (xs : list Z) :
  forall st, consistent self st ->
    exists st', rfor_in xs (fun _ st => round self actor_a actor_b st) st = Ok st'.
Proof.
  induction xs as [|x xs IH]; intros st Hc; cbn [rfor_in]; [eauto|].
  destruct (round_playable st (proj1 Hc)) as [st1 E]. rewrite E. cbn [rbind].
  apply IH. exact (proj1 (round_consistent self actor_a actor_b st st1 Hc E)).
Qed.

(** Between playable agents a match without [poisson] always completes. *)
Lemma play_playable : exists m, play self actor_a actor_b = Ok m.
Proof.
  unfold play, py_range. cbn [rbind]. apply rounds_playable. repeat split.
Qed.

End PlayableFacts.

(** ** The number of rounds *)

(** C4 (the code does not play with [poisson] set). When [poisson] is set,
    [iterate] never reaches the round loop: the drawn length is an array of
    one element, which [range] refuses with a [TypeError]; and when the
    interval to draw from is empty the draw itself raises a [ValueError]. *)
Theorem iterate_with_poisson_raises
    (payoff : Z -> Z -> Z * Z) (length j : Z) (actor_a actor_b : Agent)
    (w : World) :
  fst (iterate (Environment_init payoff length (Some j)) actor_a actor_b w) =
  Err (if length + j <=? length - j then ValueError "low >= high" else TypeError).
Proof.
  unfold iterate, Environment_init, bind, np_random_randint, ret, lift.
  cbn [poisson env_length].
  destruct (length + j <=? length - j); reflexivity.
Qed.

(** Without [poisson], a match between playable agents completes and both
    histories have exactly [length] entries. *)
Lemma iterate_without_poisson
    (payoff : Z -> Z -> Z * Z) (length : Z) (actor_a actor_b : Agent) (w : World) :
  playable actor_a -> playable actor_b ->
  exists m,
    iterate (Environment_init payoff length None) actor_a actor_b w = (Ok m, w) /\
    List.length (history_a m) = Z.to_nat length /\
    List.length (history_b m) = Z.to_nat length.
Proof.
  intros Ha Hb.
  destruct (play_playable (Environment_init payoff length None)
              actor_a actor_b Ha Hb) as [m Hm].
  exists m. rewrite iterate_is_play by reflexivity. rewrite Hm.
  destruct (play_rounds _ _ _ m Hm) as (H1 & H2 & _). auto.
Qed.

(** C8. The [poisson] argument of the tournament has no effect: two
    tournaments that differ in it only are the same object and compete the
    same way, their environment has no [poisson], a match of theirs that
    completes has played exactly [length] rounds, and between playable
    agents every match completes. *)
Theorem tournament_poisson_is_dead
    (competitors length : Z) (payoff : Z -> Z -> Z * Z) (p1 p2 : option Z) :
  Tournament_init competitors length payoff p1 =
  Tournament_init competitors length payoff p2 /\
  compete (Tournament_init competitors length payoff p1) =
  compete (Tournament_init competitors length payoff p2) /\
  poisson (environment (Tournament_init competitors length payoff p1)) = None /\
  (forall a b w m,
     fst (iterate (environment (Tournament_init competitors length payoff p1))
            a b w) = Ok m ->
     List.length (history_a m) = Z.to_nat length /\
     List.length (history_b m) = Z.to_nat length) /\
  (forall a b w,
     playable a -> playable b ->
     exists m,
       fst (iterate (environment (Tournament_init competitors length payoff p1))
              a b w) = Ok m).
Proof.
  do 3 (split; [reflexivity|]). split.
  - intros a b w m H. rewrite iterate_is_play in H by reflexivity.
    cbn [fst] in H.
    destruct (play_rounds _ _ _ m H) as (H1 & H2 & _). split; assumption.
  - intros a b w Ha Hb.
    destruct (iterate_without_poisson payoff length a b w Ha Hb) as (m & E & _).
    exists m. cbn [Tournament_init environment]. now rewrite E.
Qed.

Lemma tournament_poisson_is_dead_witness :
  compete (Tournament_init 3 2 canonical_payoff (Some 5)) =
  compete (Tournament_init 3 2 canonical_payoff None) /\
  (List.length (history_a (mkMatch 6 6 [1; 1] [1; 1])) = Z.to_nat 2 /\
   List.length (history_b (mkMatch 6 6 [1; 1] [1; 1])) = Z.to_nat 2) /\
  exists m,
    fst (iterate (environment (Tournament_init 3 2 canonical_payoff (Some 5)))
           agent_00100 agent_00100 world0) = Ok m.
Proof.
  pose proof (tournament_poisson_is_dead 3 2 canonical_payoff (Some 5) None)
    as (_ & H2 & _ & H4 & H5).
  split; [exact H2 | split].
  - apply (H4 (mkAgent [0; 0; 1] 0 (mkArr2 [0] [1]) 1)
              (mkAgent [0; 0; 1] 0 (mkArr2 [0] [1]) 1) world0).
    reflexivity.
  - apply H5; (split; [exists [0; 0; 1; 0; 0]; reflexivity | cbn; lia]).
Defined.

(** * Properties of the tournament *)

Section TournamentFacts.

Variable self : Tournament.

Lemma convert_to_id_yields (n : Z) :
  yields (convert_to_id self n) (code_of (competitors self) n).
Proof.
  intros w. unfold convert_to_id, code_of, bind, lift, ret, print.
  destruct (ceil_log2 (competitors self)) as [leading|e]; cbn [rbind];
    [|reflexivity].
  destruct (leading mod 2 =? 0);
    destruct (digits_of_string _); reflexivity.
Qed.

Lemma compete_yields :
  poisson (environment self) = None -> yields (compete self) (compete_result self).
Proof.
  intros Hp. unfold compete, compete_result.
  apply yields_bind; [apply yields_lift|]. intros population.
  apply yields_bind; [|intros scores; apply yields_ret].
  apply yields_for_in. intros n_a scores.
  apply yields_bind; [apply convert_to_id_yields|]. intros [id_a string_a].
  apply yields_bind; [apply yields_lift|]. intros a.
  apply yields_for_in. intros n_b scores'.
  apply yields_bind; [apply convert_to_id_yields|]. intros [id_b string_b].
  apply yields_bind; [apply yields_lift|]. intros b.
  apply yields_bind; [now apply iterate_yields_play|]. intros m.
  apply yields_ret.
Qed.

End TournamentFacts.

(** The agent of code 0: no columns. *)
Lemma Agent_init_one_digit (d : Z) :
  Agent_init [d] = Ok (mkAgent [d] d (mkArr2 [] []) 0).
Proof. reflexivity. Qed.

(** Two agents of code 0 play one round and fail in the second. *)
Lemma play_code_0 (self : Environment) :
  2 <= env_length self ->
  play self (mkAgent [0] 0 (mkArr2 [] []) 0) (mkAgent [0] 0 (mkArr2 [] []) 0)
  = Err IndexError.
Proof.
  intros H. unfold play, py_range. cbn [rbind].
  destruct (Z.to_nat (env_length self)) as [|[|k]] eqn:E; try lia.
  cbn [seq map rfor_in]. unfold round at 1. cbn.
  destruct (payoff self 1 1) as [x y]. cbn [rbind]. reflexivity.
Qed.

(** A population of one or two has one-digit codes, so its first match
    already fails when two or more rounds are asked for. *)
Lemma compete_small_population
    (population length : Z) (payoff : Z -> Z -> Z * Z) (p : option Z) :
  1 <= population <= 2 -> 2 <= length ->
  compete_result (Tournament_init population length payoff p) = Err IndexError.
Proof.
  intros Hc Hl. unfold compete_result, Tournament_init.
  assert (C : population = 1 \/ population = 2) by lia.
  assert (P : play (Environment_init payoff length None)
                (mkAgent [0] 0 (mkArr2 [] []) 0) (mkAgent [0] 0 (mkArr2 [] []) 0)
              = Err IndexError) by (apply play_code_0; exact Hl).
  destruct C as [-> | ->]; cbn [competitors environment].
  - change (py_range (PyInt 1)) with (Ok [0]). cbn [rbind rfor_in].
    change (code_of 1 0) with (Ok ([0], "0"%string)). cbn [rbind].
    rewrite Agent_init_one_digit. cbn [rbind rfor_in].
    change (code_of 1 0) with (Ok ([0], "0"%string)). cbn [rbind].
    rewrite P. reflexivity.
  - change (py_range (PyInt 2)) with (Ok [0; 1]). cbn [rbind rfor_in].
    change (code_of 2 0) with (Ok ([0], "0"%string)). cbn [rbind].
    rewrite Agent_init_one_digit. cbn [rbind rfor_in].
    change (code_of 2 0) with (Ok ([0], "0"%string)). cbn [rbind].
    rewrite P. reflexivity.
Qed.

(** ** Populations of one and two *)

(** C3 (the code does not deliver the table). Two competitors and two
    rounds: instead of returning 4 rows, [compete] raises the [IndexError] of
    the second round of the first match, whatever the payoff function. *)
Theorem compete_two_competitors_two_rounds
    (payoff : Z -> Z -> Z * Z) (p : option Z) (w : World) :
  fst (compete (Tournament_init 2 2 payoff p) w) = Err IndexError.
Proof.
  rewrite (compete_yields (Tournament_init 2 2 payoff p) eq_refl w).
  apply compete_small_population; lia.
Qed.

(** C10. An agent built from a single digit has no columns; its window
    length is 0, the slice of that length is the whole history, and every
    call of [decide] with two non-empty histories raises.  So a tournament
    of one or two competitors over two or more rounds raises. *)
Theorem zero_column_agent_fails :
  (forall id a history_self history_other,
     Agent_init id = Ok a -> length id = 1%nat ->
     history_self <> [] -> history_other <> [] ->
     dim2 a = 0%nat /\
     Nat.min (length history_self) (dim2 a) = 0%nat /\
     slice_last 0 history_self = history_self /\
     exists e, decide a history_self history_other = Err e) /\
  (forall population length payoff p w,
     1 <= population <= 2 -> 2 <= length ->
     exists e, fst (compete (Tournament_init population length payoff p) w) = Err e).
Proof.
  split.
  - intros id a hs ho Hinit Hlen _ Hne.
    destruct id as [|d [|d' id']]; try discriminate Hlen.
    rewrite Agent_init_one_digit in Hinit. injection Hinit as <-.
    cbn [dim2]. rewrite Nat.min_0_r. repeat split.
    now apply decide_no_columns.
  - intros population length payoff p w Hc Hl. exists IndexError.
    rewrite (compete_yields (Tournament_init population length payoff p) eq_refl w).
    now apply compete_small_population.
Qed.

Lemma zero_column_agent_fails_witness :
  (exists e, decide (mkAgent [1] 1 (mkArr2 [] []) 0) [1] [-1] = Err e) /\
  (exists e, fst (compete (Tournament_init 2 3 canonical_payoff None) world0) = Err e).
Proof.
  split.
  - apply (proj1 zero_column_agent_fails [1] (mkAgent [1] 1 (mkArr2 [] []) 0)
             [1] [-1]); try reflexivity; discriminate.
  - apply (proj2 zero_column_agent_fails 2 3 canonical_payoff None world0); lia.
Defined.

(** ** The rows of the table *)

(** A row as [compete] appends it to [scores], with where its entries come
    from. *)
Lemma compete_result_rows (self : Tournament) (table : list (list cell)) :
  compete_result self = Ok table ->
  forall row, In row table ->
    exists n_a n_b id_a id_b code_a code_b a b m,
      0 <= n_a < competitors self /\ 0 <= n_b < competitors self /\
      code_of (competitors self) n_a = Ok (id_a, code_a) /\
      code_of (competitors self) n_b = Ok (id_b, code_b) /\
      Agent_init id_a = Ok a /\ Agent_init id_b = Ok b /\
      play (environment self) a b = Ok m /\
      row = [CStr (decimal n_a); CStr (decimal n_b); CStr code_a; CStr code_b;
             CStr (decimal (total_a m)); CStr (decimal (total_b m))].
Proof.
  unfold compete_result, py_range. cbn [rbind].
  set (population := map Z.of_nat (seq 0 (Z.to_nat (competitors self)))).
  assert (Hpop : forall n, In n population -> 0 <= n < competitors self).
  { intros n Hn. unfold population in Hn. apply in_map_iff in Hn.
    destruct Hn as (k & <- & Hk). apply in_seq in Hk. lia. }
  set (good := fun row : list cell =>
    exists n_a n_b id_a id_b code_a code_b a b m,
      0 <= n_a < competitors self /\ 0 <= n_b < competitors self /\
      code_of (competitors self) n_a = Ok (id_a, code_a) /\
      code_of (competitors self) n_b = Ok (id_b, code_b) /\
      Agent_init id_a = Ok a /\ Agent_init id_b = Ok b /\
      play (environment self) a b = Ok m /\
      row = [CInt n_a; CInt n_b; CStr code_a; CStr code_b;
             CInt (total_a m); CInt (total_b m)]).
  destruct (rfor_in population _ []) as [scores|e] eqn:E; cbn [rbind];
    [|discriminate].
  intros [= <-].
  assert (G : Forall good scores).
  { revert E. apply rfor_in_invariant; [|constructor].
    intros n_a s s' Hna Hs.
    destruct (code_of (competitors self) n_a) as [[id_a code_a]|e] eqn:Ca;
      cbn [rbind]; [|discriminate].
    destruct (Agent_init id_a) as [a|e] eqn:Ia; cbn [rbind]; [|discriminate].
    apply rfor_in_invariant; [|exact Hs].
    intros n_b t t' Hnb Ht.
    destruct (code_of (competitors self) n_b) as [[id_b code_b]|e] eqn:Cb;
      cbn [rbind]; [|discriminate].
    destruct (Agent_init id_b) as [b|e] eqn:Ib; cbn [rbind]; [|discriminate].
    destruct (play (environment self) a b) as [m|e] eqn:Pm; cbn [rbind];
      [|discriminate].
    intros [= <-]. apply Forall_app. split; [exact Ht|].
    constructor; [|constructor].
    exists n_a, n_b, id_a, id_b, code_a, code_b, a, b, m.
    repeat split; auto; apply Hpop; assumption. }
  assert (A : np_array scores = map (map to_str) scores).
  { unfold np_array. destruct scores as [|r rs]; [reflexivity|].
    inversion G as [|? ? Hr _]; subst.
    destruct Hr as (n_a & n_b & id_a & id_b & code_a & code_b & a & b & m & H).
    decompose [and] H. subst r. reflexivity. }
  rewrite A. intros row Hrow. apply in_map_iff in Hrow.
  destruct Hrow as (r & <- & Hr).
  rewrite Forall_forall in G. specialize (G r Hr).
  destruct G as (n_a & n_b & id_a & id_b & code_a & code_b & a & b & m & H).
  exists n_a, n_b, id_a, id_b, code_a, code_b, a, b, m.
  decompose [and] H. subst r. repeat split; auto.
Qed.




(** ** Codes *)

Section CodeFacts.

Lemma length_append (s1 s2 : string) :
  String.length (s1 ++ s2) = (String.length s1 + String.length s2)%nat.
Proof. induction s1 as [|c s1 IH]; cbn; [reflexivity | now rewrite IH]. Qed.

Lemma length_zeros (n : nat) : String.length (zeros n) = n.
Proof. induction n as [|n IH]; cbn; [reflexivity | now rewrite IH]. Qed.

Lemma length_bin_digits (p : positive) :
  forall acc,
    String.length (bin_digits p acc) = (Pos.size_nat p + String.length acc)%nat.
Proof.
  induction p as [q IH|q IH|]; intros acc; cbn [bin_digits Pos.size_nat].
  - rewrite IH. cbn. lia.
  - rewrite IH. cbn. lia.
  - cbn. lia.
Qed.

Lemma size_nat_bound (p : positive) :
  forall k : nat, Zpos p < 2 ^ Z.of_nat k -> (Pos.size_nat p <= k)%nat.
Proof.
  induction p as [q IH|q IH|]; intros k H; cbn [Pos.size_nat].
  - destruct k as [|k]; [cbn in H; lia|].
    rewrite Nat2Z.inj_succ, Z.pow_succ_r in H by lia.
    specialize (IH k). lia.
  - destruct k as [|k]; [cbn in H; lia|].
    rewrite Nat2Z.inj_succ, Z.pow_succ_r in H by lia.
    specialize (IH k). lia.
  - destruct k as [|k]; [cbn in H; lia | lia].
Qed.

Lemma digits_of_string_app (s1 s2 : string) (d1 d2 : list Z) :
  digits_of_string s1 = Ok d1 -> digits_of_string s2 = Ok d2 ->
  digits_of_string (s1 ++ s2) = Ok (d1 ++ d2).
Proof.
  revert d1. induction s1 as [|c s1 IH]; intros d1 H1 H2; cbn in *.
  - injection H1 as <-. exact H2.
  - destruct (int_of_char c) as [d|e]; cbn [rbind] in *; [|discriminate].
    destruct (digits_of_string s1) as [ds|e]; cbn [rbind] in *; [|discriminate].
    injection H1 as <-. rewrite (IH ds eq_refl H2). reflexivity.
Qed.

Lemma digits_of_zeros (n : nat) : digits_of_string (zeros n) = Ok (repeat 0 n).
Proof.
  induction n as [|n IH]; [reflexivity|].
  cbn [zeros digits_of_string repeat]. rewrite IH. reflexivity.
Qed.

Lemma digits_of_bin_digits (p : positive) :
  forall acc da,
    digits_of_string acc = Ok da ->
    exists dp,
      digits_of_string (bin_digits p acc) = Ok (dp ++ da) /\
      length dp = Pos.size_nat p /\
      Forall is_bit dp /\
      forall v, fold_left horner dp v = v * 2 ^ Z.of_nat (Pos.size_nat p) + Zpos p.
Proof.
  induction p as [q IH|q IH|]; intros acc da Ha; cbn [bin_digits Pos.size_nat].
  - destruct (IH (String "1" acc) (1 :: da)) as (dq & E & L & B & V).
    { cbn [digits_of_string]. rewrite Ha. reflexivity. }
    exists (dq ++ [1]). rewrite <- app_assoc. repeat split.
    + exact E.
    + rewrite length_app. cbn. lia.
    + apply Forall_app. split; [exact B|]. constructor; [now right | constructor].
    + intros v. rewrite fold_left_app, V. cbn [fold_left]. unfold horner.
      rewrite Nat2Z.inj_succ, Z.pow_succ_r by lia. lia.
  - destruct (IH (String "0" acc) (0 :: da)) as (dq & E & L & B & V).
    { cbn [digits_of_string]. rewrite Ha. reflexivity. }
    exists (dq ++ [0]). rewrite <- app_assoc. repeat split.
    + exact E.
    + rewrite length_app. cbn. lia.
    + apply Forall_app. split; [exact B|]. constructor; [now left | constructor].
    + intros v. rewrite fold_left_app, V. cbn [fold_left]. unfold horner.
      rewrite Nat2Z.inj_succ, Z.pow_succ_r by lia. lia.
  - exists [1]. repeat split.
    + cbn [digits_of_string]. rewrite Ha. reflexivity.
    + constructor; [now right | constructor].
    + intros v. cbn. unfold horner. lia.
Qed.

Lemma fold_horner_zeros (n : nat) : fold_left horner (repeat 0 n) 0 = 0.
Proof. induction n as [|n IH]; cbn; [reflexivity | exact IH]. Qed.

Lemma is_bit_zeros (n : nat) : Forall is_bit (repeat 0 n).
Proof. induction n; cbn; constructor; [now left | assumption]. Qed.

(** A number below [2^width] is written with exactly [width] binary digits
    that denote it. *)
Lemma format_0b_digits (width n : Z) :
  1 <= width -> 0 <= n < 2 ^ width ->
  exists digits,
    digits_of_string (format_0b width n) = Ok digits /\
    String.length (format_0b width n) = Z.to_nat width /\
    length digits = Z.to_nat width /\
    Forall is_bit digits /\
    fold_left horner digits 0 = n.
Proof.
  intros Hw Hn. destruct n as [|p|p]; [| |lia].
  - exists (repeat 0 (Z.to_nat width - 1) ++ [0]). cbn [format_0b]. repeat split.
    + apply digits_of_string_app; [apply digits_of_zeros | reflexivity].
    + rewrite length_append, length_zeros. cbn. lia.
    + rewrite length_app, repeat_length. cbn. lia.
    + apply Forall_app. split; [apply is_bit_zeros|]. constructor; [now left | constructor].
    + rewrite fold_left_app, fold_horner_zeros. reflexivity.
  - cbn [format_0b].
    destruct (digits_of_bin_digits p EmptyString [] eq_refl) as (dp & E & L & B & V).
    rewrite app_nil_r in E.
    assert (Hs : (Pos.size_nat p <= Z.to_nat width)%nat).
    { apply size_nat_bound. rewrite Z2Nat.id by lia. lia. }
    rewrite length_bin_digits. cbn [String.length]. rewrite Nat.add_0_r.
    exists (repeat 0 (Z.to_nat width - Pos.size_nat p) ++ dp). repeat split.
    + apply digits_of_string_app; [apply digits_of_zeros | exact E].
    + rewrite length_append, length_zeros, length_bin_digits. cbn. lia.
    + rewrite length_app, repeat_length. lia.
    + apply Forall_app. split; [apply is_bit_zeros | exact B].
    + rewrite fold_left_app, fold_horner_zeros, V. lia.
Qed.

(** The corrected code length is odd, positive, and wide enough for every
    member of the population. *)
Lemma code_length_spec (population : Z) :
  1 <= population ->
  code_length population mod 2 = 1 /\
  1 <= code_length population /\
  population <= 2 ^ code_length population.
Proof.
  intros H. unfold code_length.
  pose proof (Z.log2_up_nonneg population) as Hnn.
  assert (Hle : population <= 2 ^ Z.log2_up population)
    by (apply Z.log2_log2_up_spec; lia).
  destruct (Z.eqb_spec (Z.log2_up population mod 2) 0) as [E|E].
  - repeat split; try lia.
    + revert E. generalize (Z.log2_up population). intros z E.
      Z.div_mod_to_equations. lia.
    + rewrite Z.pow_add_r by lia. lia.
  - repeat split; try lia.
    + revert E. generalize (Z.log2_up population). intros z E.
      Z.div_mod_to_equations. lia.
    + destruct (Z.eq_dec (Z.log2_up population) 0) as [Z0|Z0]; [|lia].
      rewrite Z0 in E. cbn in E. congruence.
Qed.

(** An odd number of digits always constructs an agent. *)
Lemma Agent_init_odd (id : list Z) :
  Z.of_nat (length id) mod 2 = 1 ->
  exists a,
    Agent_init id = Ok a /\
    start a = hd 0 id /\
    Z.of_nat (dim2 a) = (Z.of_nat (length id) - 1) / 2.
Proof.
  intros H.
  assert (Hk : exists k, length id = (2 * k + 1)%nat).
  { exists (Z.to_nat (Z.of_nat (length id) / 2)).
    apply Nat2Z.inj. rewrite Nat2Z.inj_add, Nat2Z.inj_mul, Z2Nat.id.
    - change (Z.of_nat 2) with 2. change (Z.of_nat 1) with 1.
      Z.div_mod_to_equations. lia.
    - Z.div_mod_to_equations. lia. }
  destruct Hk as [k Hk].
  destruct id as [|first rest]; [cbn in Hk; lia|].
  assert (Hr : length rest = (2 * k)%nat) by (cbn [length] in Hk; lia).
  assert (Hd : ((length (first :: rest) - 1) / 2)%nat = k).
  { cbn [length]. replace (S (length rest) - 1)%nat with (k * 2)%nat by lia.
    apply Nat.div_mul. lia. }
  assert (Hm : (length (first :: rest) mod 2 =? 0)%nat = false).
  { apply Nat.eqb_neq. rewrite Hk.
    replace (2 * k + 1)%nat with (1 + k * 2)%nat by lia.
    rewrite Nat.Div0.mod_add. cbn. lia. }
  unfold Agent_init, get_id_matrix, np_reshape2. rewrite Hm, Hd, Hr, Nat.eqb_refl.
  cbn [rbind]. eexists. split; [reflexivity|]. unfold shape1. cbn [start dim2 hd row0].
  split; [reflexivity|]. rewrite length_firstn, Hk.
  replace (Z.of_nat (2 * k + 1) - 1) with (Z.of_nat k * 2) by lia.
  rewrite Z.div_mul by lia. lia.
Qed.

End CodeFacts.

Lemma exact_below_limit : exact_log2_bound < uint64_limit.
Proof. reflexivity. Qed.

Lemma ceil_log2_small (c : Z) :
  1 <= c < uint64_limit -> ceil_log2 c = Ok (Z.log2_up c).
Proof.
  intros H. unfold ceil_log2. destruct c as [|q|q]; try lia.
  destruct (Z.ltb_spec (Z.pos q) uint64_limit); [reflexivity | lia].
Qed.

(** What [convert_to_id] returns and prints for a population that is not
    empty. *)
Lemma convert_to_id_run (self : Tournament) (n : Z) (w : World) :
  1 <= competitors self < uint64_limit ->
  convert_to_id self n w =
    (code_of (competitors self) n,
     mkWorld (rng w)
       (stdout w ++
        if Z.log2_up (competitors self) mod 2 =? 0 then [warning_msg] else [])).
Proof.
  intros H. unfold convert_to_id, code_of, bind, lift, ret, print.
  rewrite (ceil_log2_small _ H). cbn [rbind].
  destruct (Z.log2_up (competitors self) mod 2 =? 0); cbn [rng stdout].
  - destruct (digits_of_string _); reflexivity.
  - rewrite app_nil_r. destruct w as [g out]. cbn [rng stdout].
    destruct (digits_of_string _); reflexivity.
Qed.

(** The code of every member of the population: as many binary digits as the
    corrected length, denoting the member, and an agent can be built from
    them. *)
Lemma code_of_member (population n : Z) :
  0 <= n < population -> population < uint64_limit ->
  exists digits a,
    code_of population n = Ok (digits, format_0b (code_length population) n) /\
    String.length (format_0b (code_length population) n)
      = Z.to_nat (code_length population) /\
    length digits = Z.to_nat (code_length population) /\
    Forall is_bit digits /\
    value_of_digits digits = n /\
    Agent_init digits = Ok a /\
    start a = hd 0 digits /\
    Z.of_nat (dim2 a) = (code_length population - 1) / 2.
Proof.
  intros Hn Hlim.
  destruct (code_length_spec population ltac:(lia)) as (Hodd & Hpos & Hpow).
  destruct (format_0b_digits (code_length population) n Hpos ltac:(lia))
    as (digits & E & Ls & Ld & B & V).
  destruct (Agent_init_odd digits) as (a & Ia & Sa & Da).
  { rewrite Ld, Z2Nat.id by lia. exact Hodd. }
  exists digits, a. unfold code_of.
  rewrite ceil_log2_small by lia. cbn [rbind].
  fold (code_length population). cbv zeta. rewrite E. cbn [rbind].
  rewrite Ld, Z2Nat.id in Da by lia.
  repeat split; assumption.
Qed.

(** The counterexample to C7 as stated: a population of [2^64].  The
    logarithm of that integer cannot be taken, so already the index 0 gets no
    code: [convert_to_id] raises a [TypeError]. *)
Lemma convert_to_id_population_2_64 :
  0 <= 0 < 2 ^ 64 /\
  fst (convert_to_id (Tournament_init (2 ^ 64) 1 canonical_payoff None) 0 world0)
    = Err TypeError.
Proof. split; [split; [discriminate | reflexivity] | reflexivity]. Qed.

(** C7, amended. For a population of up to [2^48] competitors and every [n]
    of it, [convert_to_id] returns: the length is the ceiling of the binary
    logarithm of the population, plus one when that is even, with the warning
    printed in that case only; that length is odd; [n] is written with exactly
    that many binary digits, zero-padded, and the digit sequence (which
    denotes [n]) constructs an agent. *)
Theorem convert_to_id_total
    (population length : Z) (payoff : Z -> Z -> Z * Z) (p : option Z)
    (n : Z) (w : World) :
  0 <= n < population -> population <= exact_log2_bound ->
  let b := if Z.even (Z.log2_up population)
           then Z.log2_up population + 1 else Z.log2_up population in
  Z.odd b = true /\
  exists digits binary w',
    convert_to_id (Tournament_init population length payoff p) n w
      = (Ok (digits, binary), w') /\
    rng w' = rng w /\
    stdout w' =
      stdout w ++ (if Z.even (Z.log2_up population) then [warning_msg] else []) /\
    binary = format_0b b n /\
    String.length binary = Z.to_nat b /\
    List.length digits = Z.to_nat b /\
    Forall is_bit digits /\
    value_of_digits digits = n /\
    exists a, Agent_init digits = Ok a.
Proof.
  intros Hn Hbound b.
  pose proof exact_below_limit as Hlim.
  assert (Hev : (Z.log2_up population mod 2 =? 0) = Z.even (Z.log2_up population)).
  { rewrite Zmod_even. now destruct (Z.even (Z.log2_up population)). }
  assert (Hb : code_length population = b).
  { unfold code_length, b. cbv zeta. now rewrite Hev. }
  destruct (code_length_spec population ltac:(lia)) as (Hodd & _ & _).
  destruct (code_of_member population n Hn ltac:(lia))
    as (digits & a & C & Ls & Ld & B & V & Ia & _ & _).
  rewrite Hb in *. split.
  - rewrite Zmod_odd in Hodd. destruct (Z.odd b); [reflexivity | discriminate].
  - exists digits, (format_0b b n). eexists. split.
    + rewrite convert_to_id_run by (cbn [Tournament_init competitors]; lia).
      cbn [Tournament_init competitors]. rewrite C, Hev. reflexivity.
    + cbn [rng stdout]. repeat split; try assumption. now exists a.
Qed.

Lemma convert_to_id_total_witness :
  Z.odd 3 = true /\
  exists digits binary w',
    convert_to_id (Tournament_init 3 2 canonical_payoff None) 2 world0
      = (Ok (digits, binary), w') /\
    rng w' = rng world0 /\
    stdout w' = stdout world0 ++ [warning_msg] /\
    binary = format_0b 3 2 /\
    String.length binary = 3%nat /\
    List.length digits = 3%nat /\
    Forall is_bit digits /\
    value_of_digits digits = 2 /\
    exists a, Agent_init digits = Ok a.
Proof.
  apply (convert_to_id_total 3 2 canonical_payoff None 2 world0);
    [lia | discriminate].
Defined.

(** ** Populations of three and more *)

Section TableFacts.

Lemma rfor_in_append {R} (xs : list Z) (body : Z -> list R -> result (list R))
    (block : Z -> list R) :
  (forall x s, In x xs -> body x s = Ok (s ++ block x)) ->
  forall s, rfor_in xs body s = Ok (s ++ flat_map block xs).
Proof.
  induction xs as [|x xs IH]; intros Hb s; cbn [rfor_in flat_map].
  - now rewrite app_nil_r.
  - rewrite Hb by now left. cbn [rbind].
    rewrite IH by (intros y t Hy; apply Hb; now right).
    now rewrite app_assoc.
Qed.

Lemma flat_map_single {A B} (g : A -> B) (xs : list A) :
  flat_map (fun x => [g x]) xs = map g xs.
Proof. induction xs as [|x xs IH]; cbn; [reflexivity | now rewrite IH]. Qed.

Lemma length_flat_map_blocks {A B} (f : A -> list B) (n : nat) (xs : list A) :
  (forall x, In x xs -> length (f x) = n) ->
  length (flat_map f xs) = (length xs * n)%nat.
Proof.
  induction xs as [|x xs IH]; intros H; cbn [flat_map length]; [reflexivity|].
  rewrite length_app, H by now left.
  rewrite IH by (intros y Hy; apply H; now right). lia.
Qed.

Lemma nth_error_flat_map_blocks {A B} (f : A -> list B) (n : nat) (xs : list A) :
  (forall x, In x xs -> length (f x) = n) ->
  forall i j x,
    nth_error xs i = Some x -> (j < n)%nat ->
    nth_error (flat_map f xs) (i * n + j) = nth_error (f x) j.
Proof.
  induction xs as [|y xs IH]; intros H i j x Hi Hj.
  - destruct i; discriminate Hi.
  - cbn [flat_map]. destruct i as [|i]; cbn [nth_error] in Hi.
    + injection Hi as ->. cbn [Nat.mul Nat.add].
      apply nth_error_app1. rewrite H by now left. exact Hj.
    + rewrite nth_error_app2 by (rewrite H by (now left); lia).
      rewrite H by now left.
      replace (S i * n + j - n)%nat with (i * n + j)%nat by lia.
      apply IH; auto. intros z Hz. apply H. now right.
Qed.

Lemma nth_error_population (n : nat) (i : nat) :
  (i < n)%nat -> nth_error (map Z.of_nat (seq 0 n)) i = Some (Z.of_nat i).
Proof.
  intros H. rewrite nth_error_map, nth_error_seq.
  destruct (Nat.ltb_spec i n); [reflexivity | lia].
Qed.

Lemma np_array_strings (rows : list (list cell)) :
  Forall (fun r => existsb is_str r = true) rows ->
  np_array rows = map (map to_str) rows.
Proof.
  intros H. unfold np_array. destruct rows as [|r rs]; [reflexivity|].
  inversion H as [|? ? Hr _]; subst. cbn [existsb]. rewrite Hr. reflexivity.
Qed.

Variable self : Tournament.

Lemma row_of_ok (n_a n_b : Z) :
  pair_ok self n_a n_b ->
  exists code_a code_b t_a t_b,
    row_of self n_a n_b =
      [CInt n_a; CInt n_b; CStr code_a; CStr code_b; CInt t_a; CInt t_b].
Proof.
  intros (id_a & sa & a & id_b & sb & b & m & Ca & Ia & Cb & Ib & Pm).
  unfold row_of. rewrite Ca, Cb, Ia, Ib, Pm. eauto.
Qed.

(** When every pair plays, the table has all the rows, pair after pair. *)
Lemma compete_result_all_pairs :
  (forall n_a n_b,
     0 <= n_a < competitors self -> 0 <= n_b < competitors self ->
     pair_ok self n_a n_b) ->
  let population := map Z.of_nat (seq 0 (Z.to_nat (competitors self))) in
  compete_result self =
    Ok (map (map to_str)
          (flat_map (fun n_a => map (row_of self n_a) population) population)).
Proof.
  intros Hok population. unfold compete_result, py_range. cbn [rbind].
  fold population.
  assert (Hpop : forall n, In n population -> 0 <= n < competitors self).
  { intros n Hn. unfold population in Hn. apply in_map_iff in Hn.
    destruct Hn as (k & <- & Hk). apply in_seq in Hk. lia. }
  rewrite (rfor_in_append population _
             (fun n_a => map (row_of self n_a) population)).
  - cbn [rbind app]. f_equal. apply np_array_strings.
    apply Forall_forall. intros r Hr. apply in_flat_map in Hr.
    destruct Hr as (n_a & Hna & Hr). apply in_map_iff in Hr.
    destruct Hr as (n_b & <- & Hnb).
    destruct (row_of_ok n_a n_b) as (ca & cb & ta & tb & ->); [|reflexivity].
    apply Hok; apply Hpop; assumption.
  - intros n_a s Hna.
    pose proof (Hok n_a n_a (Hpop n_a Hna) (Hpop n_a Hna))
      as (id_a & sa & a & _ & _ & _ & _ & Ca & Ia & _).
    rewrite Ca. cbn [rbind]. rewrite Ia. cbn [rbind].
    rewrite <- flat_map_single. apply rfor_in_append.
    intros n_b t Hnb.
    pose proof (Hok n_a n_b (Hpop n_a Hna) (Hpop n_b Hnb))
      as (id_a' & sa' & a' & id_b & sb & b & m & Ca' & Ia' & Cb & Ib & Pm).
    rewrite Ca in Ca'. injection Ca' as <- <-.
    rewrite Ia in Ia'. injection Ia' as <-.
    unfold row_of. rewrite Ca, Cb. cbn [rbind]. rewrite Ia, Ib. cbn [rbind].
    rewrite Pm. reflexivity.
Qed.

End TableFacts.

(** In a population of three or more every code has at least three digits,
    so every agent is playable and every pair plays. *)
Lemma pair_ok_large_population
    (population length : Z) (payoff : Z -> Z -> Z * Z) (p : option Z)
    (n_a n_b : Z) :
  3 <= population <= exact_log2_bound ->
  0 <= n_a < population -> 0 <= n_b < population ->
  pair_ok (Tournament_init population length payoff p) n_a n_b.
Proof.
  intros H3 Ha Hb. pose proof exact_below_limit as Hlim.
  assert (Hlen : 3 <= code_length population).
  { destruct (code_length_spec population ltac:(lia)) as (Hodd & Hpos & _).
    assert (1 < Z.log2_up population)
      by (apply Z.log2_up_lt_pow2; [lia | cbn; lia]).
    clear Hodd Hpos. unfold code_length. cbv zeta.
    revert H. generalize (Z.log2_up population). intros z Hz.
    destruct (Z.eqb_spec (z mod 2) 0) as [E|E]; [lia|].
    Z.div_mod_to_equations. lia. }
  assert (Hplay : forall n, 0 <= n < population ->
            exists digits a,
              code_of population n
                = Ok (digits, format_0b (code_length population) n) /\
              Agent_init digits = Ok a /\ playable a).
  { intros n Hn.
    destruct (code_of_member population n Hn ltac:(lia))
      as (digits & a & C & _ & Ld & B & _ & Ia & Sa & Da).
    exists digits, a. repeat split; auto.
    - now exists digits.
    - rewrite Sa. destruct digits as [|d ds]; [cbn; lia|].
      inversion B as [|? ? Hd _]; subst. cbn. destruct Hd; lia.
    - assert (1 <= (code_length population - 1) / 2)
        by (apply Z.div_le_lower_bound; lia).
      lia. }
  destruct (Hplay n_a Ha) as (da & a & Ca & Ia & Pa).
  destruct (Hplay n_b Hb) as (db & b & Cb & Ib & Pb).
  destruct (play_playable (Environment_init payoff length None) a b Pa Pb)
    as [m Pm].
  exists da, (format_0b (code_length population) n_a), a,
         db, (format_0b (code_length population) n_b), b, m.
  cbn [Tournament_init competitors environment]. auto.
Qed.

(** With three or more competitors (up to [2^48]) [compete] returns the
    square table: one row per ordered pair, self-pairs included, the row of
    [(n_a, n_b)] at position [n_a * competitors + n_b]. *)
Lemma compete_table
    (population length : Z) (payoff : Z -> Z -> Z * Z) (p : option Z)
    (w : World) :
  3 <= population <= exact_log2_bound ->
  exists table,
    fst (compete (Tournament_init population length payoff p) w) = Ok table /\
    List.length table = Z.to_nat (population * population) /\
    forall n_a n_b,
      0 <= n_a < population -> 0 <= n_b < population ->
      exists code_a code_b t_a t_b,
        nth_error table (Z.to_nat (n_a * population + n_b)) =
          Some [CStr (decimal n_a); CStr (decimal n_b); CStr code_a; CStr code_b;
                CStr (decimal t_a); CStr (decimal t_b)].
Proof.
  intros H3. set (t := Tournament_init population length payoff p).
  assert (Hok : forall n_a n_b,
            0 <= n_a < competitors t -> 0 <= n_b < competitors t ->
            pair_ok t n_a n_b)
    by (intros; now apply pair_ok_large_population).
  eexists. split; [|split].
  - rewrite (compete_yields t eq_refl w).
    apply (compete_result_all_pairs t Hok).
  - cbn [competitors t Tournament_init].
    rewrite length_map, (length_flat_map_blocks _ (Z.to_nat population))
      by (intros; now rewrite !length_map, length_seq).
    rewrite length_map, length_seq. lia.
  - intros n_a n_b Ha Hb. cbn [competitors t Tournament_init].
    destruct (row_of_ok t n_a n_b (Hok n_a n_b Ha Hb))
      as (ca & cb & ta & tb & Hrow).
    exists ca, cb, ta, tb.
    rewrite nth_error_map.
    replace (Z.to_nat (n_a * population + n_b))
      with (Z.to_nat n_a * Z.to_nat population + Z.to_nat n_b)%nat by nia.
    assert (Hblock : forall x,
              In x (map Z.of_nat (seq 0 (Z.to_nat population))) ->
              List.length
                (map (row_of t x) (map Z.of_nat (seq 0 (Z.to_nat population))))
              = Z.to_nat population)
      by (intros; now rewrite !length_map, length_seq).
    rewrite (nth_error_flat_map_blocks _ (Z.to_nat population) _ Hblock
               (Z.to_nat n_a) (Z.to_nat n_b) n_a).
    + rewrite nth_error_map, nth_error_population by lia.
      cbn [option_map]. rewrite !Z2Nat.id by lia. rewrite Hrow. reflexivity.
    + rewrite nth_error_population by lia. f_equal. lia.
    + lia.
Qed.

(** The worked example of the documentation: two competitors, one round,
    payoffs 3/3, 1/1, 0/5 and 5/0. *)
Example compete_two_competitors_one_round :
  fst (compete (Tournament_init 2 1 canonical_payoff None) world0) =
    Ok [[CStr "0"; CStr "0"; CStr "0"; CStr "0"; CStr "3"; CStr "3"];
        [CStr "0"; CStr "1"; CStr "0"; CStr "1"; CStr "0"; CStr "5"];
        [CStr "1"; CStr "0"; CStr "1"; CStr "0"; CStr "5"; CStr "0"];
        [CStr "1"; CStr "1"; CStr "1"; CStr "1"; CStr "1"; CStr "1"]]%string.
Proof. reflexivity. Qed.

(** * Further properties of the agent *)

Lemma pow_neg1_is_move (e : Z) : 0 <= e -> is_move ((-1) ^ e).
Proof.
  intros He. unfold is_move, cooperate, defect. pattern e.
  apply natlike_ind; [| |exact He].
  - left. reflexivity.
  - intros x Hx IH. rewrite Z.pow_succ_r by exact Hx. lia.
Qed.

Lemma heaviside_is_move (x : Z) : is_move (heaviside x).
Proof.
  unfold is_move, heaviside, cooperate, defect.
  destruct (x <? 0); [right | left]; reflexivity.
Qed.

(** X1. For an agent built from binary digits and histories of moves: once
    the other player has moved, and the window
    [k = min(len(history_self), columns)] is covered by the other history,
    [decide] returns the sign (zero counting as positive) of one column sum
    only: the entries [k] places from the end of the two histories, weighted
    by column [columns - k] of the matrix. *)
Theorem decide_sign_of_oldest_column
    (id : list Z) (a : Agent) (history_self history_other : list Z) :
  Agent_init id = Ok a ->
  Forall is_bit id ->
  Forall is_move history_self -> Forall is_move history_other ->
  let k := Nat.min (length history_self) (dim2 a) in
  (1 <= k <= length history_other)%nat ->
  decide a history_self history_other =
    Ok (heaviside
          (0 + nth (length history_other - k) history_other 0
                 * nth (dim2 a - k) (row0 (id_matrix a)) 0
             + nth (length history_self - k) history_self 0
                 * nth (dim2 a - k) (row1 (id_matrix a)) 0)).
Proof.
  intros Hinit _ _ _.
  exact (decide_first_column id a history_self history_other Hinit).
Qed.

Lemma decide_sign_of_oldest_column_witness :
  decide agent_00100 [1; 1; -1] [-1; 1; 1] =
    Ok (heaviside
          (0 + nth (length [-1; 1; 1] - 2) [-1; 1; 1] 0
                 * nth (dim2 agent_00100 - 2) (row0 (id_matrix agent_00100)) 0
             + nth (length [1; 1; -1] - 2) [1; 1; -1] 0
                 * nth (dim2 agent_00100 - 2) (row1 (id_matrix agent_00100)) 0)).
Proof.
  apply (decide_sign_of_oldest_column [0; 0; 1; 0; 0] agent_00100
           [1; 1; -1] [-1; 1; 1]).
  - reflexivity.
  - one_of_two.
  - one_of_two.
  - one_of_two.
  - cbn. lia.
Defined.

Lemma decide_is_move (a : Agent) (hs ho : list Z) (d : Z) :
  decide a hs ho = Ok d -> is_move d.
Proof.
  unfold decide.
  destruct (length ho =? 0)%nat.
  - unfold pow_neg1. destruct (Z.ltb_spec (start a) 0); [discriminate|].
    intros [= <-]. now apply pow_neg1_is_move.
  - destruct (np_stack _ _) as [history|e]; cbn [rbind]; [|discriminate].
    destruct (np_mul _ _) as [product|e]; cbn [rbind]; [|discriminate].
    destruct (py_sum product) as [[|x total]|e]; cbn [rbind map index0];
      try discriminate.
    intros [= <-]. apply heaviside_is_move.
Qed.

(** X2. Whatever [decide] returns is a move: 1 or -1. *)
Theorem decide_returns_a_move
    (a : Agent) (history_self history_other : list Z) (d : Z) :
  decide a history_self history_other = Ok d -> is_move d.
Proof. exact (decide_is_move a history_self history_other d). Qed.

Lemma decide_returns_a_move_witness : is_move 1.
Proof.
  apply (decide_returns_a_move agent_00100 [1; 1] [1; -1] 1). reflexivity.
Defined.

(** X3. For an agent with at least one column and a non-empty other
    history, [decide] returns exactly when the window
    [k = min(len(history_self), columns)] is not empty and the other history
    has at least [k] entries; otherwise stacking the two windows raises a
    [ValueError]. *)
Theorem decide_returns_iff_window_covered
    (id : list Z) (a : Agent) (history_self history_other : list Z) :
  Agent_init id = Ok a -> (1 <= dim2 a)%nat -> history_other <> [] ->
  let k := Nat.min (length history_self) (dim2 a) in
  ((1 <= k <= length history_other)%nat ->
   exists d, decide a history_self history_other = Ok d) /\
  (~ (1 <= k <= length history_other)%nat ->
   decide a history_self history_other =
     Err (ValueError "all input arrays must have the same shape")).
Proof.
  intros Hinit Hdim Hne k. split.
  - intros Hk. eexists. now apply (decide_first_column id).
  - intros Hk. unfold decide. fold k.
    destruct history_other as [|o ho]; [congruence|].
    cbn [length Nat.eqb]. unfold np_stack.
    destruct (Nat.eq_dec k 0) as [K0|K0].
    + assert (Hs : history_self = [])
        by (apply length_zero_iff_nil; unfold k in K0; lia).
      rewrite K0, Hs. reflexivity.
    + assert (Ks : (k <= length history_self)%nat) by (unfold k; lia).
      rewrite (slice_last_length k history_self) by lia.
      unfold slice_last at 1.
      destruct (Nat.eqb_spec k 0) as [E|E]; [lia|].
      cbn [length] in Hk |- *.
      replace (S (length ho) - k)%nat with 0%nat by lia. cbn [skipn length].
      destruct (Nat.eqb_spec (S (length ho)) k) as [E'|E']; [lia | reflexivity].
Qed.

Lemma decide_returns_iff_window_covered_witness :
  (exists d, decide agent_00100 [1; 1] [1; -1] = Ok d) /\
  decide agent_00100 [1; 1] [1] =
    Err (ValueError "all input arrays must have the same shape").
Proof.
  split.
  - apply (proj1 (decide_returns_iff_window_covered [0; 0; 1; 0; 0] agent_00100
                    [1; 1] [1; -1] eq_refl ltac:(cbn; lia) ltac:(discriminate))).
    cbn. lia.
  - apply (proj2 (decide_returns_iff_window_covered [0; 0; 1; 0; 0] agent_00100
                    [1; 1] [1] eq_refl ltac:(cbn; lia) ltac:(discriminate))).
    cbn. lia.
Defined.

(** X4. Bounded memory: when both histories are at least as long as the
    matrix is wide, what [decide] returns depends on their last [columns]
    entries only; the older parts may differ from each other in content and
    in length. *)
Theorem decide_depends_on_windows_only
    (id : list Z) (a : Agent) (history_self history_other older_self older_other
       : list Z) :
  Agent_init id = Ok a ->
  (dim2 a <= length history_self)%nat ->
  (dim2 a <= length history_other)%nat ->
  history_other <> [] ->
  returned (decide a (older_self ++ history_self) (older_other ++ history_other)) =
  returned (decide a history_self history_other).
Proof.
  intros Hinit Hs Ho Hne.
  destruct (Agent_init_inv id a Hinit) as (first & rest & _ & Hr & _ & L0 & L1).
  destruct (Nat.eq_dec (dim2 a) 0) as [D|D].
  - assert (R0 : row0 (id_matrix a) = []) by (apply length_zero_iff_nil; lia).
    assert (R1 : row1 (id_matrix a) = []) by (apply length_zero_iff_nil; lia).
    destruct (decide_no_columns a history_self history_other D R0 R1 Hne)
      as [e ->].
    destruct (decide_no_columns a (older_self ++ history_self)
                (older_other ++ history_other) D R0 R1) as [e' ->];
      [|reflexivity].
    destruct older_other; [exact Hne | discriminate].
  - rewrite !decide_window by (rewrite ?length_app; lia).
    rewrite !slice_last_app by lia. reflexivity.
Qed.

Lemma decide_depends_on_windows_only_witness :
  returned (decide agent_00100 ([-1] ++ [1; 1]) ([1; 1; 1] ++ [1; -1])) =
  returned (decide agent_00100 [1; 1] [1; -1]).
Proof.
  apply (decide_depends_on_windows_only [0; 0; 1; 0; 0]).
  - reflexivity.
  - cbn. lia.
  - cbn. lia.
  - discriminate.
Defined.

(** X5. With two or more columns, the move [decide] returns does not depend
    on the most recent move of either player. *)
Theorem decide_ignores_latest_moves
    (id : list Z) (a : Agent) (history_self history_other : list Z)
    (u v u' v' : Z) :
  Agent_init id = Ok a -> (2 <= dim2 a)%nat ->
  length history_self = length history_other ->
  (1 <= length history_self)%nat ->
  decide a (history_self ++ [u]) (history_other ++ [v]) =
  decide a (history_self ++ [u']) (history_other ++ [v']).
Proof.
  intros Hinit Hdim Hl Hpos.
  rewrite (decide_first_column id a (history_self ++ [u]) (history_other ++ [v]))
    by (try assumption; rewrite !length_app; cbn [length]; lia).
  rewrite (decide_first_column id a (history_self ++ [u']) (history_other ++ [v']))
    by (try assumption; rewrite !length_app; cbn [length]; lia).
  rewrite !length_app. cbn [length].
  set (k := Nat.min (length history_self + 1) (dim2 a)).
  assert (Hk : (2 <= k <= length history_self + 1)%nat) by (unfold k; lia).
  rewrite !app_nth1 by lia. reflexivity.
Qed.

Lemma decide_ignores_latest_moves_witness :
  decide agent_00100 ([1; -1] ++ [1]) ([-1; 1] ++ [1]) =
  decide agent_00100 ([1; -1] ++ [-1]) ([-1; 1] ++ [-1]).
Proof.
  apply (decide_ignores_latest_moves [0; 0; 1; 0; 0]).
  - reflexivity.
  - cbn. lia.
  - reflexivity.
  - cbn. lia.
Defined.

Lemma slice_last_one (l : list Z) :
  l <> [] -> slice_last 1 l = [nth (length l - 1) l 0].
Proof.
  intros H. assert (1 <= length l)%nat by (destruct l; [congruence | cbn; lia]).
  rewrite (slice_last_head 0 1 l) by lia.
  replace (S (length l - 1)) with (length l) by lia.
  now rewrite skipn_all.
Qed.

(** X6. For an agent built from binary digits and histories of moves: when
    the window has a single column (a one-column matrix, or one round played
    so far), [decide] returns what the documented rule gives: the sign of the
    sum of all products. *)
Theorem decide_one_column_as_documented
    (id : list Z) (a : Agent) (history_self history_other : list Z) :
  Agent_init id = Ok a ->
  Forall is_bit id ->
  Forall is_move history_self -> Forall is_move history_other ->
  Nat.min (length history_self) (dim2 a) = 1%nat ->
  history_other <> [] ->
  decide a history_self history_other =
    Ok (decide_documented a history_self history_other).
Proof.
  intros Hinit _ _ _ Hk Hne.
  destruct (Agent_init_inv id a Hinit) as (first & rest & _ & _ & _ & L0 & L1).
  assert (Ho : (1 <= length history_other)%nat)
    by (destruct history_other; [congruence | cbn; lia]).
  rewrite (decide_first_column id a history_self history_other Hinit)
    by (rewrite Hk; lia).
  unfold decide_documented, cols_last. rewrite Hk. cbn [row0 row1].
  rewrite !slice_last_one;
    try (intros E; apply (f_equal (@length Z)) in E; cbn [length] in E; lia);
    try exact Hne.
  cbn [zip_with sum_list]. rewrite L0, L1. do 2 f_equal. ring.
Qed.

Lemma decide_one_column_as_documented_witness :
  decide (mkAgent [0; 1; 0] 0 (mkArr2 [1] [0]) 1) [1; 1] [1; -1] =
    Ok (decide_documented (mkAgent [0; 1; 0] 0 (mkArr2 [1] [0]) 1) [1; 1] [1; -1]).
Proof.
  apply (decide_one_column_as_documented [0; 1; 0]).
  - reflexivity.
  - one_of_two.
  - one_of_two.
  - one_of_two.
  - reflexivity.
  - discriminate.
Defined.

(** X7. Construction loses nothing: [get_id] gives back the digits the
    agent was built from, they are the bias followed by row 0 and row 1 of
    the matrix, and [get_id_matrix] on them gives the stored bias and
    matrix again. *)
Theorem Agent_init_lossless (digits : list Z) (a : Agent) :
  Agent_init digits = Ok a ->
  get_id a = digits /\
  digits = start a :: row0 (id_matrix a) ++ row1 (id_matrix a) /\
  length digits = (2 * dim2 a + 1)%nat /\
  get_id_matrix (get_id a) = Ok (start a, id_matrix a).
Proof.
  intros Hinit.
  destruct (Agent_init_inv digits a Hinit)
    as (first & rest & Hid & Hr & Ha & _ & _).
  rewrite Ha. unfold get_id. cbn [id start id_matrix row0 row1 dim2].
  repeat split.
  - rewrite firstn_skipn. exact Hid.
  - rewrite Hid. cbn [length]. lia.
  - revert Hinit. unfold Agent_init.
    destruct (length digits mod 2 =? 0)%nat; [discriminate|].
    destruct (get_id_matrix digits) as [[s m]|e]; cbn [rbind]; [|discriminate].
    intros [= Ea]. rewrite Ha in Ea. injection Ea as -> ->. reflexivity.
Qed.

Lemma Agent_init_lossless_witness :
  get_id agent_00100 = [0; 0; 1; 0; 0] /\
  [0; 0; 1; 0; 0] =
    start agent_00100 :: row0 (id_matrix agent_00100) ++ row1 (id_matrix agent_00100) /\
  length [0; 0; 1; 0; 0] = (2 * dim2 agent_00100 + 1)%nat /\
  get_id_matrix (get_id agent_00100) = Ok (start agent_00100, id_matrix agent_00100).
Proof.
  apply (Agent_init_lossless [0; 0; 1; 0; 0] agent_00100). reflexivity.
Defined.

Lemma nth_all_zero (l : list Z) (i : nat) :
  Forall (eq 0) l -> nth i l 0 = 0.
Proof.
  intros H. revert i. induction H as [|x l Hx _ IH]; intros [|i]; cbn; auto.
Qed.

(** X8. An agent whose matrix digits are all zero cooperates whenever
    [decide] gets a window covered by the other history: every weighted sum
    is zero, and zero counts as positive. *)
Theorem zero_matrix_agent_cooperates
    (id : list Z) (a : Agent) (history_self history_other : list Z) :
  Agent_init id = Ok a ->
  Forall (eq 0) (tl id) ->
  (1 <= Nat.min (length history_self) (dim2 a) <= length history_other)%nat ->
  decide a history_self history_other = Ok cooperate.
Proof.
  intros Hinit Hz Hk.
  destruct (Agent_init_inv id a Hinit) as (first & rest & Hid & _ & Ha & _ & _).
  rewrite (decide_first_column id a history_self history_other Hinit Hk).
  rewrite Hid in Hz. cbn [tl] in Hz.
  rewrite <- (firstn_skipn (dim2 a) rest) in Hz. apply Forall_app in Hz.
  destruct Hz as [Z0 Z1].
  assert (R0 : row0 (id_matrix a) = firstn (dim2 a) rest)
    by (rewrite Ha at 1; reflexivity).
  assert (R1 : row1 (id_matrix a) = skipn (dim2 a) rest)
    by (rewrite Ha at 1; reflexivity).
  rewrite R0, R1.
  rewrite (nth_all_zero (firstn (dim2 a) rest)) by assumption.
  rewrite (nth_all_zero (skipn (dim2 a) rest)) by assumption.
  rewrite !Z.mul_0_r. reflexivity.
Qed.

Lemma zero_matrix_agent_cooperates_witness :
  decide (mkAgent [1; 0; 0; 0; 0] 1 (mkArr2 [0; 0] [0; 0]) 2) [-1; -1] [-1; -1]
  = Ok cooperate.
Proof.
  apply (zero_matrix_agent_cooperates [1; 0; 0; 0; 0]).
  - reflexivity.
  - repeat constructor.
  - cbn. lia.
Defined.

(** * Further properties of the match engine *)

Section MoreMatchFacts.

Variable self : Environment.

Lemma rfor_in_app {S} (xs ys : list Z) (body : Z -> S -> result S) (s : S) :
  rfor_in (xs ++ ys) body s = rbind (rfor_in xs body s) (rfor_in ys body).
Proof.
  revert s. induction xs as [|x xs IH]; intros s; cbn [app rfor_in rbind].
  - reflexivity.
  - destruct (body x s) as [s'|e]; cbn [rbind]; [apply IH | reflexivity].
Qed.

(** The round loop does not look at its index. *)
Lemma rounds_index_free (a b : Agent) (xs ys : list Z) :
  length xs = length ys ->
  forall st,
    rfor_in xs (fun _ st => round self a b st) st =
    rfor_in ys (fun _ st => round self a b st) st.
Proof.
  revert ys. induction xs as [|x xs IH]; intros [|y ys] H st; cbn in H;
    try lia; cbn [rfor_in]; [reflexivity|].
  destruct (round self a b st) as [st'|e]; cbn [rbind]; [|reflexivity].
  apply IH. lia.
Qed.

Lemma round_moves (a b : Agent) (st st' : Match) :
  round self a b st = Ok st' ->
  exists da db,
    is_move da /\ is_move db /\
    history_a st' = history_a st ++ [da] /\
    history_b st' = history_b st ++ [db].
Proof.
  unfold round.
  destruct (decide a _ _) as [da|e] eqn:Ea; cbn [rbind]; [|discriminate].
  destruct (decide b _ _) as [db|e] eqn:Eb; cbn [rbind]; [|discriminate].
  destruct (payoff self da db) as [pa pb]. intros [= <-].
  exists da, db. cbn [history_a history_b].
  repeat split; eauto using decide_is_move.
Qed.

(** The rounds only append moves to the histories. *)
Lemma rounds_extend (a b : Agent) (xs : list Z) :
  forall st st',
    rfor_in xs (fun _ st => round self a b st) st = Ok st' ->
    exists ea eb,
      history_a st' = history_a st ++ ea /\
      history_b st' = history_b st ++ eb /\
      Forall is_move ea /\ Forall is_move eb /\
      length ea = length xs /\ length eb = length xs.
Proof.
  induction xs as [|x xs IH]; intros st st'; cbn [rfor_in].
  - intros [= <-]. exists [], []. rewrite !app_nil_r. repeat split; constructor.
  - destruct (round self a b st) as [st1|e] eqn:E; cbn [rbind]; [|discriminate].
    intros H. destruct (round_moves a b st st1 E) as (da & db & Ma & Mb & Ha & Hb).
    destruct (IH st1 st' H) as (ea & eb & Ha' & Hb' & Fa & Fb & La & Lb).
    exists (da :: ea), (db :: eb). rewrite Ha', Hb', Ha, Hb, <- !app_assoc.
    cbn [app length]. repeat split; auto.
Qed.

Lemma round_mirror (a b : Agent) (st st' : Match) :
  symmetric (payoff self) ->
  round self a b st = Ok st' ->
  round self b a (mirror st) = Ok (mirror st').
Proof.
  intros Hsym. unfold round, mirror. cbn [history_a history_b total_a total_b].
  destruct (decide a _ _) as [da|e]; cbn [rbind]; [|discriminate].
  destruct (decide b _ _) as [db|e]; cbn [rbind]; [|discriminate].
  rewrite (Hsym da db).
  destruct (payoff self da db) as [pa pb]. intros [= <-]. reflexivity.
Qed.

Lemma rounds_mirror (a b : Agent) (xs : list Z) :
  symmetric (payoff self) ->
  forall st st',
    rfor_in xs (fun _ st => round self a b st) st = Ok st' ->
    rfor_in xs (fun _ st => round self b a st) (mirror st) = Ok (mirror st').
Proof.
  intros Hsym. induction xs as [|x xs IH]; intros st st'; cbn [rfor_in].
  - intros [= <-]. reflexivity.
  - destruct (round self a b st) as [st1|e] eqn:E; cbn [rbind]; [|discriminate].
    intros H. rewrite (round_mirror a b st st1 Hsym E). cbn [rbind].
    now apply IH.
Qed.

Lemma rounds_self_play (a : Agent) (xs : list Z) :
  forall st st',
    history_a st = history_b st ->
    rfor_in xs (fun _ st => round self a a st) st = Ok st' ->
    history_a st' = history_b st'.
Proof.
  intros st st' H0. apply (rfor_in_invariant (fun st => history_a st = history_b st));
    [|exact H0].
  intros x s s' _ Hs. unfold round. rewrite Hs.
  destruct (decide a _ _) as [da|e]; cbn [rbind]; [|discriminate].
  destruct (payoff self da da) as [pa pb]. intros [= <-]. reflexivity.
Qed.

End MoreMatchFacts.

(** X9. A match without [poisson] that completes leaves the random
    generator and the output untouched; both histories have [length] entries
    (none for a negative [length]), every entry is a move, and each total is
    the sum of that player's points over the rounds. *)
Theorem iterate_result_without_poisson
    (self : Environment) (actor_a actor_b : Agent) (w : World) (m : Match) :
  poisson self = None ->
  fst (iterate self actor_a actor_b w) = Ok m ->
  snd (iterate self actor_a actor_b w) = w /\
  length (history_a m) = Z.to_nat (env_length self) /\
  length (history_b m) = Z.to_nat (env_length self) /\
  Forall is_move (history_a m) /\
  Forall is_move (history_b m) /\
  total_a m = sum_list (map fst (points (payoff self) (history_a m) (history_b m))) /\
  total_b m = sum_list (map snd (points (payoff self) (history_a m) (history_b m))).
Proof.
  intros Hp H. rewrite iterate_is_play in * by exact Hp. cbn [fst snd] in *.
  destruct (play_rounds self actor_a actor_b m H) as (La & Lb & Ta & Tb).
  unfold play, py_range in H. cbn [rbind] in H.
  destruct (rounds_extend self actor_a actor_b _ _ _ H)
    as (ea & eb & Ha & Hb & Fa & Fb & _).
  cbn [history_a history_b app] in Ha, Hb. rewrite Ha, Hb in *.
  repeat split; assumption.
Qed.

Lemma iterate_result_without_poisson_witness :
  snd (iterate (Environment_init canonical_payoff 2 None)
         agent_00100 agent_00100 world0) = world0 /\
  length (history_a (mkMatch 6 6 [1; 1] [1; 1])) = Z.to_nat 2 /\
  length (history_b (mkMatch 6 6 [1; 1] [1; 1])) = Z.to_nat 2 /\
  Forall is_move (history_a (mkMatch 6 6 [1; 1] [1; 1])) /\
  Forall is_move (history_b (mkMatch 6 6 [1; 1] [1; 1])) /\
  total_a (mkMatch 6 6 [1; 1] [1; 1]) =
    sum_list (map fst (points canonical_payoff [1; 1] [1; 1])) /\
  total_b (mkMatch 6 6 [1; 1] [1; 1]) =
    sum_list (map snd (points canonical_payoff [1; 1] [1; 1])).
Proof.
  apply (iterate_result_without_poisson
           (Environment_init canonical_payoff 2 None) agent_00100 agent_00100
           world0 (mkMatch 6 6 [1; 1] [1; 1])); reflexivity.
Defined.

(** X10. Without [poisson], a match between two agents that were built from
    their digits, have a bias that is not negative and at least one matrix
    column always completes, with exactly [length] rounds played. *)
Theorem iterate_completes_between_playable_agents
    (payoff : Z -> Z -> Z * Z) (length : Z) (actor_a actor_b : Agent) (w : World) :
  playable actor_a -> playable actor_b ->
  exists m,
    iterate (Environment_init payoff length None) actor_a actor_b w = (Ok m, w) /\
    List.length (history_a m) = Z.to_nat length /\
    List.length (history_b m) = Z.to_nat length.
Proof. exact (iterate_without_poisson payoff length actor_a actor_b w). Qed.

Lemma iterate_completes_between_playable_agents_witness :
  exists m,
    iterate (Environment_init canonical_payoff 4 None) agent_00100 agent_00100 world0
      = (Ok m, world0) /\
    List.length (history_a m) = Z.to_nat 4 /\
    List.length (history_b m) = Z.to_nat 4.
Proof.
  apply (iterate_completes_between_playable_agents canonical_payoff 4
           agent_00100 agent_00100 world0);
    (split; [exists [0; 0; 1; 0; 0]; reflexivity | cbn; lia]).
Defined.

(** X11. No horizon effect: if a match over [longer] rounds completes, the
    match over fewer rounds completes too, and its histories are the first
    entries of the histories of the longer match. *)
Theorem iterate_shorter_match_is_prefix
    (payoff : Z -> Z -> Z * Z) (shorter longer : Z) (actor_a actor_b : Agent)
    (w : World) (m' : Match) :
  shorter <= longer ->
  fst (iterate (Environment_init payoff longer None) actor_a actor_b w) = Ok m' ->
  exists m,
    fst (iterate (Environment_init payoff shorter None) actor_a actor_b w) = Ok m /\
    history_a m = firstn (Z.to_nat shorter) (history_a m') /\
    history_b m = firstn (Z.to_nat shorter) (history_b m').
Proof.
  intros Hle H. rewrite iterate_is_play in * by reflexivity. cbn [fst] in *.
  unfold play, py_range in *. cbn [rbind Environment_init env_length] in *.
  set (n := Z.to_nat shorter). set (k := (Z.to_nat longer - n)%nat).
  assert (Hn : Z.to_nat longer = (n + k)%nat) by (unfold k, n; lia).
  rewrite Hn, seq_app, map_app, rfor_in_app in H.
  destruct (rfor_in (map Z.of_nat (seq 0 n)) _ _) as [m|e] eqn:E;
    cbn [rbind] in H; [|discriminate].
  exists m. split; [reflexivity|].
  pose proof (play_rounds (mkEnvironment payoff None shorter) actor_a actor_b m)
    as Hlen.
  unfold play, py_range in Hlen. cbn [rbind env_length] in Hlen. fold n in Hlen.
  destruct (Hlen E) as (La & Lb & _).
  destruct (rounds_extend _ actor_a actor_b _ _ _ H)
    as (ea & eb & Ha & Hb & _).
  rewrite Ha, Hb, <- La at 1. rewrite <- Lb.
  replace (length (history_a m)) with (length (history_a m) + 0)%nat at 1 by lia.
  replace (length (history_b m)) with (length (history_b m) + 0)%nat at 1 by lia.
  rewrite !firstn_app_2. cbn [firstn]. now rewrite !app_nil_r.
Qed.

Lemma iterate_shorter_match_is_prefix_witness :
  exists m,
    fst (iterate (Environment_init canonical_payoff 1 None)
           agent_00100 agent_00100 world0) = Ok m /\
    history_a m = firstn (Z.to_nat 1) (history_a (mkMatch 9 9 [1; 1; 1] [1; 1; 1])) /\
    history_b m = firstn (Z.to_nat 1) (history_b (mkMatch 9 9 [1; 1; 1] [1; 1; 1])).
Proof.
  apply (iterate_shorter_match_is_prefix canonical_payoff 1 3
           agent_00100 agent_00100 world0 (mkMatch 9 9 [1; 1; 1] [1; 1; 1])).
  - lia.
  - reflexivity.
Defined.

(** X12. With a payoff function that treats both players alike, swapping
    the two agents swaps the result: the same histories and totals with the
    sides exchanged. *)
Theorem iterate_swapped_agents
    (self : Environment) (actor_a actor_b : Agent) (w : World) (m : Match) :
  poisson self = None -> symmetric (payoff self) ->
  fst (iterate self actor_a actor_b w) = Ok m ->
  fst (iterate self actor_b actor_a w) = Ok (mirror m).
Proof.
  intros Hp Hsym H. rewrite iterate_is_play in * by exact Hp. cbn [fst] in *.
  unfold play in *. destruct (py_range _) as [rounds|e]; cbn [rbind] in *;
    [|discriminate].
  exact (rounds_mirror self actor_a actor_b rounds Hsym _ _ H).
Qed.

Lemma canonical_payoff_symmetric : symmetric canonical_payoff.
Proof.
  intros x y. unfold canonical_payoff.
  destruct (x =? 1), (y =? 1); reflexivity.
Qed.

Lemma iterate_swapped_agents_witness :
  fst (iterate (Environment_init canonical_payoff 2 None)
         (mkAgent [1; 0; 1] 1 (mkArr2 [0] [1]) 1) agent_00100 world0)
  = Ok (mirror (mkMatch 1 6 [1; -1] [-1; -1])).
Proof.
  apply (iterate_swapped_agents (Environment_init canonical_payoff 2 None)
           agent_00100 (mkAgent [1; 0; 1] 1 (mkArr2 [0] [1]) 1) world0).
  - reflexivity.
  - exact canonical_payoff_symmetric.
  - reflexivity.
Defined.

(** X13. An agent playing against itself sees the same history on both
    sides; with a payoff function that treats both players alike the two
    totals are equal too. *)
Theorem iterate_self_play
    (self : Environment) (actor : Agent) (w : World) (m : Match) :
  poisson self = None ->
  fst (iterate self actor actor w) = Ok m ->
  history_a m = history_b m /\
  (symmetric (payoff self) -> total_a m = total_b m).
Proof.
  intros Hp H. split.
  - rewrite iterate_is_play in H by exact Hp. cbn [fst] in H.
    unfold play in H. destruct (py_range _) as [rounds|e]; cbn [rbind] in H;
      [|discriminate].
    exact (rounds_self_play self actor rounds (mkMatch 0 0 [] []) m eq_refl H).
  - intros Hsym.
    pose proof (iterate_is_play self actor actor w Hp) as E.
    rewrite E in H. cbn [fst] in H.
    assert (Hm : play self actor actor = Ok (mirror m)).
    { unfold play in *. destruct (py_range _) as [rounds|e]; cbn [rbind] in *;
        [|discriminate].
      exact (rounds_mirror self actor actor rounds Hsym _ _ H). }
    rewrite H in Hm. injection Hm as Hm.
    apply (f_equal total_a) in Hm. exact Hm.
Qed.

Lemma iterate_self_play_witness :
  history_a (mkMatch 6 6 [1; 1] [1; 1]) = history_b (mkMatch 6 6 [1; 1] [1; 1]) /\
  (symmetric canonical_payoff ->
   total_a (mkMatch 6 6 [1; 1] [1; 1]) = total_b (mkMatch 6 6 [1; 1] [1; 1])).
Proof.
  apply (iterate_self_play (Environment_init canonical_payoff 2 None)
           agent_00100 world0); reflexivity.
Defined.

(** A single round: both agents open with their bias. *)
Lemma play_one_round (self : Environment) (a b : Agent) :
  env_length self = 1 -> 0 <= start a -> 0 <= start b ->
  play self a b =
    Ok (mkMatch (fst (payoff self ((-1) ^ start a) ((-1) ^ start b)))
                (snd (payoff self ((-1) ^ start a) ((-1) ^ start b)))
                [(-1) ^ start a] [(-1) ^ start b]).
Proof.
  intros Hl Ha Hb. unfold play, py_range. rewrite Hl. cbn [rbind].
  change (Z.to_nat 1) with 1%nat. cbn [seq map rfor_in].
  unfold round, decide, pow_neg1. cbn [history_a history_b length Nat.eqb].
  destruct (Z.ltb_spec (start a) 0); [lia|].
  destruct (Z.ltb_spec (start b) 0); [lia|]. cbn [rbind].
  destruct (payoff self _ _) as [pa pb]. reflexivity.
Qed.

(** X14. A match of one round, without [poisson], between any two agents
    whose bias is not negative: each plays [(-1)^bias] and the totals are the
    payoffs of that pair of moves; the matrices play no part. *)
Theorem iterate_one_round
    (self : Environment) (actor_a actor_b : Agent) (w : World) :
  poisson self = None -> env_length self = 1 ->
  0 <= start actor_a -> 0 <= start actor_b ->
  iterate self actor_a actor_b w =
    (Ok (mkMatch
           (fst (payoff self ((-1) ^ start actor_a) ((-1) ^ start actor_b)))
           (snd (payoff self ((-1) ^ start actor_a) ((-1) ^ start actor_b)))
           [(-1) ^ start actor_a] [(-1) ^ start actor_b]), w).
Proof.
  intros Hp Hl Ha Hb. rewrite iterate_is_play by exact Hp.
  now rewrite play_one_round.
Qed.

Lemma iterate_one_round_witness :
  iterate (Environment_init canonical_payoff 1 None)
    agent_00100 (mkAgent [1] 1 (mkArr2 [] []) 0) world0 =
    (Ok (mkMatch (fst (canonical_payoff ((-1) ^ 0) ((-1) ^ 1)))
                 (snd (canonical_payoff ((-1) ^ 0) ((-1) ^ 1)))
                 [(-1) ^ 0] [(-1) ^ 1]), world0).
Proof.
  apply (iterate_one_round (Environment_init canonical_payoff 1 None)
           agent_00100 (mkAgent [1] 1 (mkArr2 [] []) 0) world0);
    try reflexivity; cbn; lia.
Defined.

(** X15. A [length] of zero or less, without [poisson], is a match with no
    round: nothing is decided, the totals are 0 and the histories empty,
    whatever the agents. *)
Theorem iterate_no_round
    (self : Environment) (actor_a actor_b : Agent) (w : World) :
  poisson self = None -> env_length self <= 0 ->
  iterate self actor_a actor_b w = (Ok (mkMatch 0 0 [] []), w).
Proof.
  intros Hp Hl. rewrite iterate_is_play by exact Hp.
  unfold play, py_range. cbn [rbind].
  replace (Z.to_nat (env_length self)) with 0%nat by lia. reflexivity.
Qed.

Lemma iterate_no_round_witness :
  iterate (Environment_init canonical_payoff (-3) None)
    (mkAgent [1] 1 (mkArr2 [] []) 0) agent_00100 world0 =
    (Ok (mkMatch 0 0 [] []), world0).
Proof.
  apply (iterate_no_round (Environment_init canonical_payoff (-3) None));
    [reflexivity | cbn; lia].
Defined.

(** X16. Two agents built from one digit each (no matrix columns) play the
    first round and raise an [IndexError] in the second: a match between
    them over two or more rounds never completes. *)
Theorem iterate_one_digit_agents_raise
    (pay : Z -> Z -> Z * Z) (length d_a d_b : Z) (w : World) :
  0 <= d_a -> 0 <= d_b -> 2 <= length ->
  exists a b,
    Agent_init [d_a] = Ok a /\ Agent_init [d_b] = Ok b /\
    iterate (Environment_init pay length None) a b w = (Err IndexError, w).
Proof.
  intros Ha Hb Hl.
  exists (mkAgent [d_a] d_a (mkArr2 [] []) 0), (mkAgent [d_b] d_b (mkArr2 [] []) 0).
  split; [reflexivity | split; [reflexivity|]].
  rewrite iterate_is_play by reflexivity. f_equal.
  unfold play, py_range. cbn [rbind Environment_init env_length].
  destruct (Z.to_nat length) as [|[|k]] eqn:E; try lia.
  cbn [seq map rfor_in]. unfold round at 1, decide, pow_neg1.
  cbn [history_a history_b List.length Nat.eqb start].
  destruct (Z.ltb_spec d_a 0); [lia|].
  destruct (Z.ltb_spec d_b 0); [lia|]. cbn [rbind].
  destruct (payoff _ _ _) as [pa pb]. cbn [rbind]. reflexivity.
Qed.

Lemma iterate_one_digit_agents_raise_witness :
  exists a b,
    Agent_init [0] = Ok a /\ Agent_init [1] = Ok b /\
    iterate (Environment_init canonical_payoff 2 None) a b world0
      = (Err IndexError, world0).
Proof.
  apply (iterate_one_digit_agents_raise canonical_payoff 2 0 1 world0); lia.
Defined.

(** * Further properties of the tournament *)

Lemma size_nat_log2 (p : positive) :
  Z.of_nat (Pos.size_nat p) = Z.log2 (Zpos p) + 1.
Proof.
  induction p as [q IH|q IH|]; cbn [Pos.size_nat].
  - rewrite Nat2Z.inj_succ, IH, Pos2Z.inj_xI, Z.log2_succ_double by lia. lia.
  - rewrite Nat2Z.inj_succ, IH, Pos2Z.inj_xO, Z.log2_double by lia. lia.
  - reflexivity.
Qed.

(** Any number that is not negative is written with as many binary digits as
    it needs, and at least [width]; the digits denote it. *)
Lemma format_0b_digits_any (width n : Z) :
  1 <= width -> 0 <= n ->
  exists digits,
    digits_of_string (format_0b width n) = Ok digits /\
    String.length (format_0b width n) = length digits /\
    Z.of_nat (length digits) = Z.max width (Z.log2 n + 1) /\
    Forall is_bit digits /\
    value_of_digits digits = n.
Proof.
  intros Hw Hn. destruct n as [|p|p]; [| |lia].
  - exists (repeat 0 (Z.to_nat width - 1) ++ [0]). cbn [format_0b]. repeat split.
    + apply digits_of_string_app; [apply digits_of_zeros | reflexivity].
    + rewrite length_append, length_zeros, length_app, repeat_length. reflexivity.
    + rewrite length_app, repeat_length. cbn [length Z.log2]. lia.
    + apply Forall_app. split; [apply is_bit_zeros|]. constructor; [now left | constructor].
    + unfold value_of_digits. rewrite fold_left_app, fold_horner_zeros. reflexivity.
  - cbn [format_0b].
    destruct (digits_of_bin_digits p EmptyString [] eq_refl) as (dp & E & L & B & V).
    rewrite app_nil_r in E.
    rewrite length_bin_digits. cbn [String.length]. rewrite Nat.add_0_r.
    exists (repeat 0 (Z.to_nat width - Pos.size_nat p) ++ dp). repeat split.
    + apply digits_of_string_app; [apply digits_of_zeros | exact E].
    + rewrite length_append, length_zeros, length_bin_digits, length_app,
        repeat_length, L. cbn [String.length]. lia.
    + rewrite length_app, repeat_length, L.
      pose proof (size_nat_log2 p). lia.
    + apply Forall_app. split; [apply is_bit_zeros | exact B].
    + unfold value_of_digits. rewrite fold_left_app, fold_horner_zeros, V. lia.
Qed.

Lemma code_of_any_index (population n : Z) :
  1 <= population < uint64_limit -> 0 <= n ->
  exists digits,
    code_of population n = Ok (digits, format_0b (code_length population) n) /\
    String.length (format_0b (code_length population) n) = length digits /\
    Z.of_nat (length digits) = Z.max (code_length population) (Z.log2 n + 1) /\
    Forall is_bit digits /\
    value_of_digits digits = n.
Proof.
  intros Hp Hn.
  destruct (code_length_spec population (proj1 Hp)) as (_ & Hpos & _).
  destruct (format_0b_digits_any (code_length population) n Hpos Hn)
    as (digits & E & Ls & Ld & B & V).
  exists digits. unfold code_of.
  rewrite (ceil_log2_small _ Hp). cbn [rbind].
  fold (code_length population). cbv zeta. rewrite E. cbn [rbind].
  repeat split; assumption.
Qed.

(** X17. Round trip of the encoding: for a population of 1 to [2^48] and
    every index [n] that is not negative (inside the population or not),
    [convert_to_id] returns binary digits that denote [n], as many as the
    code length or as [n] needs, whichever is larger, and a string of the
    same size. *)
Theorem convert_to_id_round_trip
    (self : Tournament) (n : Z) (w : World) :
  1 <= competitors self <= exact_log2_bound -> 0 <= n ->
  exists digits binary,
    fst (convert_to_id self n w) = Ok (digits, binary) /\
    String.length binary = length digits /\
    Z.of_nat (length digits) =
      Z.max (code_length (competitors self)) (Z.log2 n + 1) /\
    Forall is_bit digits /\
    value_of_digits digits = n.
Proof.
  intros Hp Hn. pose proof exact_below_limit as Hlim.
  destruct (code_of_any_index (competitors self) n ltac:(lia) Hn)
    as (digits & C & Ls & Ld & B & V).
  exists digits, (format_0b (code_length (competitors self)) n).
  rewrite (convert_to_id_yields self n w). auto.
Qed.

Lemma convert_to_id_round_trip_witness :
  exists digits binary,
    fst (convert_to_id (Tournament_init 3 2 canonical_payoff None) 9 world0)
      = Ok (digits, binary) /\
    String.length binary = length digits /\
    Z.of_nat (length digits) = Z.max (code_length 3) (Z.log2 9 + 1) /\
    Forall is_bit digits /\
    value_of_digits digits = 9.
Proof.
  apply (convert_to_id_round_trip (Tournament_init 3 2 canonical_payoff None)
           9 world0); population_bounds.
Defined.

Lemma code_of_digits (population n : Z) (digits : list Z) (binary : string) :
  code_of population n = Ok (digits, binary) ->
  digits_of_string binary = Ok digits.
Proof.
  unfold code_of. destruct (ceil_log2 population) as [l|e]; cbn [rbind];
    [|discriminate].
  cbv zeta. destruct (digits_of_string _) as [ds|e] eqn:E; cbn [rbind];
    [|discriminate].
  intros [= <- <-]. exact E.
Qed.

(** X18. Different indices never get the same code: if [convert_to_id]
    returns the same binary string for two indices that are not negative,
    they are the same index. *)
Theorem convert_to_id_injective
    (self : Tournament) (n1 n2 : Z) (w1 w2 : World)
    (digits1 digits2 : list Z) (binary : string) :
  0 <= n1 -> 0 <= n2 ->
  fst (convert_to_id self n1 w1) = Ok (digits1, binary) ->
  fst (convert_to_id self n2 w2) = Ok (digits2, binary) ->
  n1 = n2.
Proof.
  intros H1 H2 E1 E2.
  rewrite (convert_to_id_yields self n1 w1) in E1.
  rewrite (convert_to_id_yields self n2 w2) in E2.
  assert (Hp : 1 <= competitors self < uint64_limit).
  { unfold code_of, ceil_log2 in E1.
    destruct (competitors self) as [|q|q]; try discriminate E1.
    destruct (Z.ltb_spec (Z.pos q) uint64_limit); [lia | discriminate E1]. }
  destruct (code_of_any_index (competitors self) n1 Hp H1)
    as (d1 & C1 & _ & _ & _ & V1).
  destruct (code_of_any_index (competitors self) n2 Hp H2)
    as (d2 & C2 & _ & _ & _ & V2).
  pose proof (code_of_digits _ _ _ _ E1) as D1.
  pose proof (code_of_digits _ _ _ _ E2) as D2.
  rewrite C1 in E1. injection E1 as -> _.
  rewrite C2 in E2. injection E2 as -> _.
  rewrite D1 in D2. injection D2 as ->.
  now rewrite <- V1, <- V2.
Qed.

Lemma convert_to_id_injective_witness : 2 = 2.
Proof.
  apply (convert_to_id_injective (Tournament_init 3 2 canonical_payoff None)
           2 2 world0 world0 [0; 1; 0] [0; 1; 0] "010"); try lia; reflexivity.
Defined.

(** X19. A negative index is refused: its binary string starts with a minus
    sign, which is no digit, so [convert_to_id] raises a [ValueError] (for a
    population from 1 to below [2^64], whose logarithm can be taken). *)
Theorem convert_to_id_negative_index
    (self : Tournament) (n : Z) (w : World) :
  1 <= competitors self < uint64_limit -> n < 0 ->
  fst (convert_to_id self n w) =
    Err (ValueError "invalid literal for int() with base 10").
Proof.
  intros Hp Hn. rewrite (convert_to_id_yields self n w).
  unfold code_of. rewrite (ceil_log2_small _ Hp). cbn [rbind]. cbv zeta.
  destruct n as [|k|k]; try lia.
  cbn [format_0b digits_of_string]. reflexivity.
Qed.

Lemma convert_to_id_negative_index_witness :
  fst (convert_to_id (Tournament_init 5 2 canonical_payoff None) (-3) world0) =
    Err (ValueError "invalid literal for int() with base 10").
Proof.
  apply (convert_to_id_negative_index (Tournament_init 5 2 canonical_payoff None)
           (-3) world0); population_bounds.
Defined.



(** X21. With zero competitors or fewer, [compete] plays nothing and
    returns the empty table; it prints nothing and draws nothing, and the
    code length is never computed. *)
Theorem compete_empty_population (self : Tournament) (w : World) :
  competitors self <= 0 -> compete self w = (Ok [], w).
Proof.
  intros Hp. unfold compete, bind, lift, py_range.
  replace (Z.to_nat (competitors self)) with 0%nat by lia. reflexivity.
Qed.

Lemma compete_empty_population_witness :
  compete (Tournament_init 0 5 canonical_payoff (Some 2)) world0 = (Ok [], world0).
Proof.
  apply (compete_empty_population (Tournament_init 0 5 canonical_payoff (Some 2))
           world0).
  cbn. lia.
Defined.




(** * Tit for tat *)

(** X24. The agent of code 010 is the tit-for-tat strategy of the
    documentation: as long as the other player has not moved it cooperates
    (the opening call with two empty histories included), and once it has a
    history of its own it repeats the latest move of the other player. *)
Theorem agent_010_is_tit_for_tat :
  Agent_init [0; 1; 0] = Ok agent_010 /\
  decide agent_010 [] [] = Ok cooperate /\
  (forall history_self, decide agent_010 history_self [] = Ok cooperate) /\
  (forall history_self older_other latest_other,
     is_move latest_other -> history_self <> [] ->
     decide agent_010 history_self (older_other ++ [latest_other])
       = Ok latest_other).
Proof.
  split; [reflexivity | split; [reflexivity | split; [reflexivity|]]].
  intros history_self older_other latest_other Hm Hs.
  assert (Ls : (1 <= length history_self)%nat)
    by (destruct history_self; [congruence | cbn; lia]).
  rewrite (decide_first_column [0; 1; 0] agent_010 history_self
             (older_other ++ [latest_other]) eq_refl)
    by (rewrite length_app; cbn [length dim2 agent_010]; lia).
  cbn [dim2 agent_010 id_matrix row0 row1].
  rewrite Nat.min_r by lia. rewrite length_app. cbn [length].
  replace (length older_other + 1 - 1)%nat with (length older_other) by lia.
  rewrite nth_middle. cbn [Nat.sub nth].
  rewrite Z.mul_0_r, Z.mul_1_r, Z.add_0_r, Z.add_0_l.
  destruct Hm as [-> | ->]; reflexivity.
Qed.

Lemma agent_010_is_tit_for_tat_witness :
  decide agent_010 [] [] = Ok cooperate /\
  decide agent_010 [1; 1] ([1] ++ [-1]) = Ok (-1).
Proof.
  pose proof agent_010_is_tit_for_tat as (_ & Hopen & _ & Hrepeat).
  split; [exact Hopen|].
  apply (Hrepeat [1; 1] [1] (-1)).
  - right. reflexivity.
  - discriminate.
Defined.
